(** * The task scheduler of [src/utils/scheduler.py]

    A shallow embedding of [ScheduledTask] and [TaskScheduler], and of the
    asyncio event loop that interleaves the poll loop, the task executions
    and the callers of the registry interface.

    Modelling conventions.
    - A [datetime] is a count of microseconds (the resolution of Python's
      [datetime]); [timedelta.total_seconds()] is the exact rational
      [d / 10^6].  The rounding of that quotient to a float and the finite
      range of [datetime] are not modelled.
    - Task objects are mutable and shared by reference between the registry
      [self.tasks] and the running coroutines, so the scheduler state holds a
      store [heap] of task objects and the registry maps names to store
      locations.  A location that is not allocated reads as the defaults
      below; the registry never holds one ([registry_ok]).
    - A coroutine runs without interruption from one [await] to the next:
      each such segment is a function on the scheduler state.  All clock
      readings inside one segment return the same instant [now].
    - The iteration order of the dict [self.tasks] is the one of
      [map_to_list]; nothing below depends on it. *)

From Stdlib Require Import ZArith QArith.
From stdpp Require Import base option list strings gmap fin_maps.

Open Scope Z_scope.

(** ** Exceptions *)

(** [ValueError], [RuntimeError] and [KeyError] are the built-in exceptions
    the scheduler raises; [OtherException] stands for any other instance of
    [Exception] raised by a task's work; [BaseException] for an exception
    that is not an instance of [Exception] (a cancellation, say). *)
Inductive exn : Type :=
| ValueError (msg : string)
| RuntimeError (msg : string)
| KeyError (key : string)
| OtherException (msg : string)
| BaseException (msg : string).

(** [isinstance(e, Exception)] *)
Definition isinstance_Exception (e : exn) : bool :=
  match e with
  | BaseException _ => false
  | _ => true
  end.

Inductive result (A : Type) : Type :=
| Ok (a : A)
| Raise (e : exn).
Arguments Ok {A} a.
Arguments Raise {A} e.

Definition raises {A : Type} (r : result A) : bool :=
  match r with
  | Ok _ => false
  | Raise _ => true
  end.

(** ** Time *)

(** A [datetime] is a count of microseconds; a store location is an index
    in the store. *)
Abbreviation datetime := Z (only parsing).
Abbreviation loc := nat (only parsing).

(** [timedelta.total_seconds()] of a difference of [d] microseconds. *)
Definition total_seconds (d : Z) : Q := d # 1000000.

(** [timedelta(seconds=n)], in microseconds. *)
Definition timedelta_seconds (n : Z) : Z := n * 1000000.

(** [x >= n] for a number of seconds [x] and an integer [n]. *)
Definition Qge_int (x : Q) (n : Z) : bool := Qle_bool (inject_Z n) x.

(** [x > n] *)
Definition Qgt_int (x : Q) (n : Z) : bool := negb (Qle_bool x (inject_Z n)).

(** The table [self.default_intervals] built by [TaskScheduler.__init__]
    (seconds); it is never assigned again. *)
Definition default_intervals : gmap string Z :=
  {[ "knowledge_update" := 3600;
     "metrics_cleanup" := 86400;
     "system_backup" := 43200;
     "health_check" := 300;
     "error_notification" := 1800 ]}.

Section Scheduler.

(** The callables registered as work and the values bound as their keyword
    arguments are opaque to the scheduler. *)
Context {Callable Any : Type}.

(** ** [ScheduledTask] *)

Record ScheduledTask : Type := mkScheduledTask {
  name : string;
  func : Callable;
  interval : Z;
  last_run : option datetime;
  is_running : bool;
  error_count : Z;
  max_errors : Z;
  args : list Any;
  kwargs : gmap string Any
}.

(** The dataclass constructor as [add_task] calls it, with the defaults of
    the class and [__post_init__] ([self.kwargs = self.kwargs or {}]). *)
Definition new_ScheduledTask (nm : string) (f : Callable) (iv : Z)
    (kw : option (gmap string Any)) : ScheduledTask :=
  {| name := nm; func := f; interval := iv; last_run := None;
     is_running := false; error_count := 0; max_errors := 3;
     args := []; kwargs := default ∅ kw |}.

Definition set_interval (v : Z) (t : ScheduledTask) : ScheduledTask :=
  {| name := name t; func := func t; interval := v; last_run := last_run t;
     is_running := is_running t; error_count := error_count t;
     max_errors := max_errors t; args := args t; kwargs := kwargs t |}.

Definition set_last_run (v : option datetime) (t : ScheduledTask) : ScheduledTask :=
  {| name := name t; func := func t; interval := interval t; last_run := v;
     is_running := is_running t; error_count := error_count t;
     max_errors := max_errors t; args := args t; kwargs := kwargs t |}.

Definition set_is_running (v : bool) (t : ScheduledTask) : ScheduledTask :=
  {| name := name t; func := func t; interval := interval t;
     last_run := last_run t; is_running := v; error_count := error_count t;
     max_errors := max_errors t; args := args t; kwargs := kwargs t |}.

Definition set_error_count (v : Z) (t : ScheduledTask) : ScheduledTask :=
  {| name := name t; func := func t; interval := interval t;
     last_run := last_run t; is_running := is_running t; error_count := v;
     max_errors := max_errors t; args := args t; kwargs := kwargs t |}.

(** ** [TaskScheduler] *)

(** [heap] is the store of task objects, [tasks] is [self.tasks],
    [running] is [self.running], and [_lock] tells whether [self._lock] is
    held. *)
Record TaskScheduler : Type := mkTaskScheduler {
  heap : list ScheduledTask;
  tasks : gmap string loc;
  running : bool;
  _lock : bool
}.

(** [TaskScheduler.__init__] *)
Definition TaskScheduler_init : TaskScheduler :=
  {| heap := []; tasks := ∅; running := false; _lock := false |}.

Definition set_heap (h : list ScheduledTask) (s : TaskScheduler) : TaskScheduler :=
  {| heap := h; tasks := tasks s; running := running s; _lock := _lock s |}.

Definition set_tasks (m : gmap string loc) (s : TaskScheduler) : TaskScheduler :=
  {| heap := heap s; tasks := m; running := running s; _lock := _lock s |}.

Definition set_running (b : bool) (s : TaskScheduler) : TaskScheduler :=
  {| heap := heap s; tasks := tasks s; running := b; _lock := _lock s |}.

Definition set_lock (b : bool) (s : TaskScheduler) : TaskScheduler :=
  {| heap := heap s; tasks := tasks s; running := running s; _lock := b |}.

(** An assignment to fields of the task object at [l]. *)
Definition update_task (f : ScheduledTask → ScheduledTask) (l : loc)
    (s : TaskScheduler) : TaskScheduler :=
  set_heap (alter f l (heap s)) s.

(** Field reads of the task object at [l]. *)
Definition is_running_at (l : loc) (s : TaskScheduler) : bool :=
  from_option is_running false (heap s !! l).

Definition name_at (l : loc) (s : TaskScheduler) : string :=
  from_option name "" (heap s !! l).

Definition error_count_at (l : loc) (s : TaskScheduler) : Z :=
  from_option error_count 0 (heap s !! l).

Definition max_errors_at (l : loc) (s : TaskScheduler) : Z :=
  from_option max_errors 0 (heap s !! l).

(** ** Registry operations *)

(** [add_task(name, func, interval=None, **kwargs)], the body run under the
    lock. *)
Definition add_task (nm : string) (f : Callable) (iv : option Z)
    (kw : gmap string Any) (s : TaskScheduler) : result TaskScheduler :=
  match tasks s !! nm with
  | Some _ => Raise (ValueError ("Task " ++ nm ++ " already exists"))
  | None =>
      let iv' := match iv with
                 | None => default 3600 (default_intervals !! nm)
                 | Some i => i
                 end in
      let task := new_ScheduledTask nm f iv' (Some kw) in
      Ok (set_tasks (<[nm := length (heap s)]> (tasks s))
            (set_heap (heap s ++ [task]) s))
  end.

(** [update_interval(name, interval)], the body run under the lock. *)
Definition update_interval (nm : string) (iv : Z) (s : TaskScheduler)
    : result TaskScheduler :=
  match tasks s !! nm with
  | None => Raise (ValueError ("Task " ++ nm ++ " not found"))
  | Some l => Ok (update_task (set_interval iv) l s)
  end.

(** [run_task_now(name)] *)
Definition run_task_now (nm : string) (s : TaskScheduler) : result TaskScheduler :=
  match tasks s !! nm with
  | None => Raise (ValueError ("Task " ++ nm ++ " not found"))
  | Some l =>
      if is_running_at l s
      then Raise (RuntimeError ("Task " ++ nm ++ " is already running"))
      else Ok (update_task (set_last_run None) l s)
  end.

(** ** Status *)

Record TaskStatus : Type := mkTaskStatus {
  st_last_run : option string;
  st_is_running : bool;
  st_error_count : Z;
  st_interval : Z;
  st_next_run : string
}.

(** [datetime.isoformat] is left abstract. *)
Context (isoformat : datetime → string).

(** The value built for one entry of the dict of [get_status]. *)
Definition status_of (now : datetime) (t : ScheduledTask) : TaskStatus :=
  {| st_last_run := isoformat <$> last_run t;
     st_is_running := is_running t;
     st_error_count := error_count t;
     st_interval := interval t;
     st_next_run :=
       match last_run t with
       | Some lr => isoformat (lr + timedelta_seconds (interval t))
       | None => isoformat now
       end |}.

(** [get_status()] *)
Definition get_status (now : datetime) (s : TaskScheduler) : gmap string TaskStatus :=
  omap (λ l, status_of now <$> heap s !! l) (tasks s).

(** ** The poll loop *)

(** The test of [_run_scheduler] on one task. *)
Definition is_due (current_time : datetime) (t : ScheduledTask) : bool :=
  negb (is_running t) &&
  match last_run t with
  | None => true
  | Some lr => Qge_int (total_seconds (current_time - lr)) (interval t)
  end.

Definition is_due_at (current_time : datetime) (l : loc) (s : TaskScheduler) : bool :=
  from_option (is_due current_time) false (heap s !! l).

(** The tasks for which one pass of the [for] loop of [_run_scheduler]
    calls [asyncio.create_task(self._execute_task(task))]. *)
Definition due_tasks (current_time : datetime) (s : TaskScheduler) : list loc :=
  filter (λ l, is_due_at current_time l s = true) (map_to_list (tasks s)).*2.

(** ** [remove_task] and [_wait_for_task] *)

(** What a segment of [remove_task] does: it returns, raises, or reaches
    the [await asyncio.sleep(0.1)] of [_wait_for_task(target)], where it
    keeps the [start_time] of the wait. *)
Inductive segment : Type :=
| Done (s : TaskScheduler)
| Raised (e : exn) (s : TaskScheduler)
| Await (target : loc) (start_time : datetime) (s : TaskScheduler).

(** One evaluation of the loop of [_wait_for_task(task, timeout=30)], from
    its test to its [await asyncio.sleep(0.1)]: [true] when the loop sleeps
    once more, [false] when it is left (the task stopped running, or the
    timeout elapsed). *)
Definition _wait_for_task (now : datetime) (l : loc) (start_time : datetime)
    (s : TaskScheduler) : bool :=
  is_running_at l s && negb (Qgt_int (total_seconds (now - start_time)) 30).

(** [del self.tasks[name]], then the release of the lock taken by
    [async with self._lock]. *)
Definition del_task (nm : string) (s : TaskScheduler) : segment :=
  match tasks s !! nm with
  | None => Raised (KeyError nm) (set_lock false s)
  | Some _ => Done (set_lock false (set_tasks (delete nm (tasks s)) s))
  end.

(** [remove_task(name)] from the acquisition of the lock (which must be
    free) to its first [await]. *)
Definition remove_task (now : datetime) (nm : string) (s : TaskScheduler)
    : segment :=
  match tasks s !! nm with
  | None => Raised (ValueError ("Task " ++ nm ++ " not found")) s
  | Some l =>
      if is_running_at l s
      then if _wait_for_task now l now s
           then Await l now (set_lock true s)
           else del_task nm s
      else del_task nm s
  end.

(** [remove_task(name)] resumed in [_wait_for_task] after a sleep. *)
Definition remove_task_resume (now : datetime) (nm : string) (l : loc)
    (start_time : datetime) (s : TaskScheduler) : segment :=
  if _wait_for_task now l start_time s
  then Await l start_time s
  else del_task nm s.

Definition segment_state (r : segment) : TaskScheduler :=
  match r with
  | Done s | Raised _ s | Await _ _ s => s
  end.

(** ** [_execute_task] *)

(** How the awaited work ends. *)
Inductive outcome : Type :=
| Returned
| Threw (e : exn).

(** The places where the coroutine [_execute_task(task)] can be
    suspended: created and not yet started; awaiting the work; the work
    has ended and the coroutine is scheduled to resume; in the handler,
    awaiting the lock of [remove_task]; in the handler, inside
    [_wait_for_task(target)] under the lock. *)
Inductive exec_pc : Type :=
| AtStart
| AtWork
| AtWorkDone (o : outcome)
| AtLock
| AtWait (target : loc) (start_time : datetime).

Inductive exec_result : Type :=
| Suspended (pc : exec_pc)
| Finished (propagated : option exn).

(** [await self.remove_task(task.name)] in the handler. *)
Definition handler_remove (now : datetime) (l : loc) (s : TaskScheduler)
    : TaskScheduler * exec_result :=
  if _lock s then (s, Suspended AtLock)
  else match remove_task now (name_at l s) s with
       | Done s' => (s', Finished None)
       | Raised e s' => (s', Finished (Some e))
       | Await target start_time s' => (s', Suspended (AtWait target start_time))
       end.

(** The [except Exception] clause. *)
Definition except_Exception (now : datetime) (l : loc) (s : TaskScheduler)
    : TaskScheduler * exec_result :=
  let s1 := update_task (λ t, set_error_count (error_count t + 1) t) l s in
  if max_errors_at l s1 <=? error_count_at l s1
  then handler_remove now l s1
  else (s1, Finished None).

(** The [finally] clause runs whenever the [try] statement is left. *)
Definition try_finally (l : loc) (r : TaskScheduler * exec_result)
    : TaskScheduler * exec_result :=
  match r with
  | (s, Finished e) => (update_task (set_is_running false) l s, Finished e)
  | (s, Suspended pc) => (s, Suspended pc)
  end.

(** The [try] body and the [except Exception] clause of
    [_execute_task(task)], for the task object at [l]: the segment run when
    the coroutine is resumed at [pc]. *)
Definition try_except (now : datetime) (l : loc) (pc : exec_pc)
    (s : TaskScheduler) : TaskScheduler * exec_result :=
  match pc with
  | AtStart =>
      (update_task (λ t, set_last_run (Some now) (set_is_running true t)) l s,
       Suspended AtWork)
  | AtWork => (s, Suspended AtWork)
  | AtWorkDone Returned =>
      (update_task (set_error_count 0) l s, Finished None)
  | AtWorkDone (Threw e) =>
      if isinstance_Exception e
      then except_Exception now l s
      else (s, Finished (Some e))
  | AtLock => handler_remove now l s
  | AtWait target start_time =>
      match remove_task_resume now (name_at l s) target start_time s with
      | Done s' => (s', Finished None)
      | Raised e s' => (s', Finished (Some e))
      | Await target' start' s' => (s', Suspended (AtWait target' start'))
      end
  end.

(** [_execute_task(task)]: the whole [try] statement. *)
Definition _execute_task (now : datetime) (l : loc) (pc : exec_pc)
    (s : TaskScheduler) : TaskScheduler * exec_result :=
  try_finally l (try_except now l pc s).

(** ** The event loop *)

(** The coroutines of the system: the poll loop [_run_scheduler], the
    executions [_execute_task(task)], and the external calls of
    [remove_task] that are waiting in [_wait_for_task]. *)
Inductive coro : Type :=
| Poll
| Exec (l : loc) (pc : exec_pc)
| Remover (nm : string) (target : loc) (start_time : datetime).

(** The asyncio event loop.  [ready] is its FIFO queue of scheduled
    callbacks: [asyncio.create_task] appends the first step of the new
    coroutine to it ([call_soon]), a timer that fires or an awaited future
    that completes appends the continuation of the coroutine that awaits
    it, and the loop runs the callbacks from the front, each to its next
    [await].  [waiting] holds the coroutines suspended on a timer
    ([asyncio.sleep]), on their work or on the lock. *)
Record config : Type := mkConfig {
  sched : TaskScheduler;
  ready : list coro;
  waiting : list coro
}.

(** The calls that other coroutines make on the scheduler. *)
Inductive call : Type :=
| AddTask (nm : string) (f : Callable) (iv : option Z) (kw : gmap string Any)
| RemoveTask (nm : string)
| UpdateInterval (nm : string) (iv : Z)
| RunTaskNow (nm : string)
| GetStatus
| Stop.

(** What can happen next: the loop runs the head of the ready queue at
    instant [now]; the awaited timer, work or lock of the [i]-th waiting
    coroutine completes, an awaited work with outcome [o]; another
    coroutine makes a call.  The work of a task is awaited in every
    execution: a work that ends without suspending is the run in which
    [Wake] and [Run] follow the start at once. *)
Inductive event : Type :=
| Run (now : datetime)
| Wake (i : nat) (o : outcome)
| Call (now : datetime) (c : call).

(** One iteration of the [while] loop of [_run_scheduler], up to its
    [await asyncio.sleep(1)]; the loop is left when [self.running] is
    false.  Nothing in the [for] loop raises on integer intervals, so the
    [except] clause of the loop is not entered. *)
Definition _run_scheduler (now : datetime) (c : config) : config :=
  if running (sched c)
  then {| sched := sched c;
          ready := ready c ++ ((λ l, Exec l AtStart) <$> due_tasks now (sched c));
          waiting := waiting c ++ [Poll] |}
  else c.

Definition run_coro (now : datetime) (h : coro) (c : config) : config :=
  match h with
  | Poll => _run_scheduler now c
  | Exec l pc =>
      match _execute_task now l pc (sched c) with
      | (s', Suspended pc') =>
          {| sched := s'; ready := ready c; waiting := waiting c ++ [Exec l pc'] |}
      | (s', Finished _) =>
          {| sched := s'; ready := ready c; waiting := waiting c |}
      end
  | Remover nm target start_time =>
      match remove_task_resume now nm target start_time (sched c) with
      | Await target' start' s' =>
          {| sched := s'; ready := ready c;
             waiting := waiting c ++ [Remover nm target' start'] |}
      | Done s' | Raised _ s' =>
          {| sched := s'; ready := ready c; waiting := waiting c |}
      end
  end.

(** The coroutine put on the ready queue when what it awaits completes. *)
Definition resume (h : coro) (o : outcome) : coro :=
  match h with
  | Exec l AtWork => Exec l (AtWorkDone o)
  | _ => h
  end.

Definition with_sched (r : result TaskScheduler) (c : config) : config :=
  match r with
  | Ok s' => {| sched := s'; ready := ready c; waiting := waiting c |}
  | Raise _ => c
  end.

(** A call made by another coroutine.  None of these bodies awaits while
    it changes the state, so a call is one step; a call that needs the
    lock happens when the lock is free (until then its caller waits).
    [stop()] clears [self.running] and then only waits, reading the
    tasks.  [start()] is called once, before the first step ([started]);
    a second poll loop, which [stop()] followed by [start()] can create
    while the first one sleeps, is not part of this model. *)
Definition do_call (now : datetime) (cl : call) (c : config) : option config :=
  match cl with
  | AddTask nm f iv kw =>
      if _lock (sched c) then None
      else Some (with_sched (add_task nm f iv kw (sched c)) c)
  | UpdateInterval nm iv =>
      if _lock (sched c) then None
      else Some (with_sched (update_interval nm iv (sched c)) c)
  | RemoveTask nm =>
      if _lock (sched c) then None
      else Some match remove_task now nm (sched c) with
                | Await target start_time s' =>
                    {| sched := s'; ready := ready c;
                       waiting := waiting c ++ [Remover nm target start_time] |}
                | Done s' | Raised _ s' =>
                    {| sched := s'; ready := ready c; waiting := waiting c |}
                end
  | RunTaskNow nm => Some (with_sched (run_task_now nm (sched c)) c)
  | GetStatus => Some c
  | Stop =>
      Some {| sched := set_running false (sched c);
              ready := ready c; waiting := waiting c |}
  end.

Definition step (ev : event) (c : config) : option config :=
  match ev with
  | Run now =>
      match ready c with
      | [] => None
      | h :: rest =>
          Some (run_coro now h
                  {| sched := sched c; ready := rest; waiting := waiting c |})
      end
  | Wake i o =>
      match waiting c !! i with
      | None => None
      | Some h =>
          Some {| sched := sched c;
                  ready := ready c ++ [resume h o];
                  waiting := delete i (waiting c) |}
      end
  | Call now cl => do_call now cl c
  end.

(** A run of the system along a list of events. *)
Fixpoint run (evs : list event) (c : config) : option config :=
  match evs with
  | [] => Some c
  | ev :: evs' =>
      match step ev c with
      | Some c' => run evs' c'
      | None => None
      end
  end.

(** The system after [TaskScheduler()] and [start()]: the poll loop has
    been created and is scheduled to run. *)
Definition started : config :=
  {| sched := set_running true TaskScheduler_init; ready := [Poll]; waiting := [] |}.

Inductive reachable : config → Prop :=
| reachable_started : reachable started
| reachable_step ev c c' : reachable c → step ev c = Some c' → reachable c'.

(** ** Invariants of the system *)

(** Every registered name leads to an allocated task object of that
    name. *)
Definition registry_ok (s : TaskScheduler) : Prop :=
  ∀ nm l, tasks s !! nm = Some l → ∃ t, heap s !! l = Some t ∧ name t = nm.

Definition coros (c : config) : list coro := ready c ++ waiting c.

(** The task objects of the executions that exist, started or not. *)
Definition exec_loc (h : coro) : option loc :=
  match h with
  | Exec l _ => Some l
  | _ => None
  end.

Definition executions (c : config) : list loc := omap exec_loc (coros c).

(** What must be unique among the coroutines: the poll loop, and the
    execution of each task object. *)
Definition coro_id (h : coro) : option (option loc) :=
  match h with
  | Poll => Some None
  | Exec l _ => Some (Some l)
  | Remover _ _ _ => None
  end.

Definition unique_coros (c : config) : Prop := NoDup (omap coro_id (coros c)).

(** The task object of an execution is allocated, and is marked as
    running once the execution has started. *)
Definition marked (c : config) : Prop :=
  ∀ l pc, Exec l pc ∈ coros c →
    ∃ t, heap (sched c) !! l = Some t ∧ (pc ≠ AtStart → is_running t = true).

(** The part of the ready queue behind the poll loop. *)
Fixpoint behind_poll (q : list coro) : list coro :=
  match q with
  | [] => []
  | Poll :: q' => q'
  | _ :: q' => behind_poll q'
  end.

(** Executions that have not started are on the ready queue, and none is
    behind the poll loop there: the loop runs them before it polls
    again. *)
Definition fifo (c : config) : Prop :=
  (∀ l, Exec l AtStart ∉ waiting c) ∧
  (∀ l, Exec l AtStart ∉ behind_poll (ready c)).

Record invariant (c : config) : Prop := mkInvariant {
  inv_registry : registry_ok (sched c);
  inv_unique : unique_coros c;
  inv_marked : marked c;
  inv_fifo : fifo c
}.


(** ** A failing execution run on its own *)

(** One execution of the task object at [l] whose work raises [e], with no
    other coroutine running in between: it starts at [t0], the work raises
    at [t1], and if the handler has to wait in [remove_task] it is resumed
    once, at [t2]. *)
Definition failing_execution (e : exn) (t0 t1 t2 : datetime) (l : loc)
    (s : TaskScheduler) : TaskScheduler * exec_result :=
  let s1 := (_execute_task t0 l AtStart s).1 in
  match _execute_task t1 l (AtWorkDone (Threw e)) s1 with
  | (s2, Suspended pc) => _execute_task t2 l pc s2
  | (s2, Finished r) => (s2, Finished r)
  end.

End Scheduler.

(** * The life cycle of the scheduler and the lock *)

Section Lifecycle.

Context {Callable Any : Type}.

(** [start()]: nothing when the scheduler is running; otherwise it sets
    [self.running] and creates the poll loop. *)
Definition start (c : @config Callable Any) : config :=
  if running (sched c) then c
  else {| sched := set_running true (sched c);
          ready := ready c ++ [Poll];
          waiting := waiting c |}.

(** [stop()] up to its [await]: it clears [self.running].  What follows
    in [stop()] only waits for the tasks that are running. *)
Definition stop (c : @config Callable Any) : config :=
  {| sched := set_running false (sched c);
     ready := ready c; waiting := waiting c |}.

(** The coroutines that are inside [async with self._lock]: the calls of
    [remove_task] suspended in [_wait_for_task]. *)
Definition is_holder (h : coro) : bool :=
  match h with
  | Remover _ _ _ => true
  | Exec _ (AtWait _ _) => true
  | _ => false
  end.

Definition holders (c : @config Callable Any) : list coro :=
  filter (λ h, is_holder h = true) (coros c).

(** The entry [self.tasks[name]] that a suspended [remove_task(name)] read
    before it started to wait. *)
Definition holds_entry (s : @TaskScheduler Callable Any) (h : coro) : Prop :=
  match h with
  | Remover nm target _ => tasks s !! nm = Some target
  | Exec l (AtWait target _) => tasks s !! name_at l s = Some target
  | _ => True
  end.

Record lock_invariant (c : @config Callable Any) : Prop := mkLockInvariant {
  lock_count : length (holders c) = if _lock (sched c) then 1%nat else 0%nat;
  lock_entry : ∀ h, h ∈ coros c → holds_entry (sched c) h
}.

(** A task object that is running has its [last_run] set. *)
Definition running_tasks_have_started (s : @TaskScheduler Callable Any) : Prop :=
  ∀ l t, heap s !! l = Some t → is_running t = true → is_Some (last_run t).

(** The fields of a task object that the scheduler assigns only when it
    builds the task or in [update_interval]. *)
Definition same_configuration (t t' : @ScheduledTask Callable Any) : Prop :=
  name t' = name t ∧ func t' = func t ∧ interval t' = interval t ∧
  max_errors t' = max_errors t ∧ args t' = args t ∧ kwargs t' = kwargs t.

(** One execution of the task object at [l] run on its own, started at
    [now0], whose work returns at [now1]. *)
Definition successful_execution (now0 now1 : datetime) (l : loc)
    (s : @TaskScheduler Callable Any) : TaskScheduler * exec_result :=
  _execute_task now1 l (AtWorkDone Returned) (_execute_task now0 l AtStart s).1.



End Lifecycle.

(** * Example data *)

(** A scheduler holding the task "health_check", never run, at its default
    interval; the poll loop is about to run. *)
Definition example_task : @ScheduledTask string Z :=
  new_ScheduledTask "health_check" "check" 300 (Some ∅).

Definition example_sched : @TaskScheduler string Z :=
  {| heap := [example_task]; tasks := {[ "health_check" := 0%nat ]};
     running := true; _lock := false |}.

Definition example_polling : @config string Z :=
  {| sched := example_sched; ready := [Poll]; waiting := [] |}.

(** The task is registered, polled and started, and its work raises. *)
Definition example_events : list (@event string Z) :=
  [ Call 0 (AddTask "health_check" "check" None ∅);
    Run 0;
    Run 1;
    Wake 1%nat (Threw (OtherException "boom")) ].

Definition example_failed : @config string Z :=
  default started (run example_events started).

(** A task registered with the keyword argument [max_errors=2], and the
    scheduler after one and after two executions whose work raises. *)
Definition example_kwargs : gmap string Z := {[ "max_errors" := 2 ]}.

Definition example_registered : @TaskScheduler string Z :=
  match add_task "x" "work" None example_kwargs TaskScheduler_init with
  | Ok s => s
  | Raise _ => TaskScheduler_init
  end.

Definition example_after_one : @TaskScheduler string Z :=
  (failing_execution (OtherException "boom") 0 1 2 0%nat example_registered).1.

Definition example_after_two : @TaskScheduler string Z :=
  (failing_execution (OtherException "boom") 3 4 5 0%nat example_after_one).1.

(** A running task at its last allowed error whose name is no longer
    registered: [remove_task] will raise inside the handler. *)
Definition example_orphan : @TaskScheduler string Z :=
  {| heap := [ {| name := "x"; func := "work"; interval := 60;
                  last_run := Some 0; is_running := true; error_count := 2;
                  max_errors := 3; args := []; kwargs := ∅ |} ];
     tasks := ∅; running := true; _lock := false |}.

(** A running task, registered. *)
Definition example_busy : @TaskScheduler string Z :=
  {| heap := [ {| name := "x"; func := "work"; interval := 60;
                  last_run := Some 0; is_running := true; error_count := 0;
                  max_errors := 3; args := []; kwargs := ∅ |} ];
     tasks := {[ "x" := 0%nat ]}; running := true; _lock := false |}.

(** A task that ran at instant 0 and is idle. *)
Definition example_idle : @TaskScheduler string Z :=
  {| heap := [ {| name := "x"; func := "work"; interval := 60;
                  last_run := Some 0; is_running := false; error_count := 0;
                  max_errors := 3; args := []; kwargs := ∅ |} ];
     tasks := {[ "x" := 0%nat ]}; running := true; _lock := false |}.

(** A task with interval 0 whose work raises in three executions in a
    row: the system when the work of the third execution has just raised,
    and after that execution has begun to wait in [remove_task]. *)
Definition example_boom : outcome := Threw (OtherException "boom").

Definition example_failing_events : list (@event string Z) :=
  [ Call 0 (AddTask "x" "work" (Some 0) ∅);
    Run 0; Run 1; Wake 1%nat example_boom; Run 2;
    Wake 0%nat Returned; Run 3; Run 4; Wake 1%nat example_boom; Run 5;
    Wake 0%nat Returned; Run 6; Run 7; Wake 1%nat example_boom ].

Definition example_third_failure : @config string Z :=
  default started (run example_failing_events started).

Definition example_self_wait : @config string Z :=
  default started
    (run (example_failing_events ++ [Run 8; Wake 1%nat Returned]) started).

(** A running task at its last allowed error whose name is registered
    again, for a new task object. *)
Definition example_namesake : @TaskScheduler string Z :=
  {| heap := [ {| name := "x"; func := "work"; interval := 60;
                  last_run := Some 0; is_running := true; error_count := 2;
                  max_errors := 3; args := []; kwargs := ∅ |};
               new_ScheduledTask "x" "work2" 60 (Some ∅) ];
     tasks := {[ "x" := 1%nat ]}; running := true; _lock := false |}.

(** The scheduler of [example_polling] stopped; then [run_task_now] is
    called and the poll loop runs. *)
Definition example_stopped : @config string Z :=
  default started
    (run [Call 1 (RunTaskNow "health_check"); Run 5] (stop example_polling)).

(** [stop()] and [start()] before the poll loop has run. *)
Definition example_restarted : @config string Z := start (stop example_polling).

(** * Properties *)

Section SchedulerProofs.

Context {Callable Any : Type}.

Implicit Types (s : @TaskScheduler Callable Any).
Implicit Types (t : @ScheduledTask Callable Any).
Implicit Types (c : @config Callable Any).
Implicit Types (l : loc) (nm : string) (now : datetime).

(** ** Time comparisons *)

Lemma Qge_int_total_seconds (d n : Z) :
  Qge_int (total_seconds d) n = true ↔ timedelta_seconds n ≤ d.
Proof.
  unfold Qge_int, total_seconds, timedelta_seconds.
  rewrite Qle_bool_iff. unfold Qle. simpl. lia.
Qed.

Lemma Qgt_int_total_seconds (d n : Z) :
  Qgt_int (total_seconds d) n = true ↔ timedelta_seconds n < d.
Proof.
  unfold Qgt_int, total_seconds, timedelta_seconds.
  rewrite negb_true_iff, <- not_true_iff_false, Qle_bool_iff.
  unfold Qle. simpl. lia.
Qed.

(** ** The due test *)

Lemma is_due_true now t :
  is_due now t = true ↔
  is_running t = false ∧
  (last_run t = None ∨
   ∃ lr, last_run t = Some lr ∧ lr + timedelta_seconds (interval t) ≤ now).
Proof.
  unfold is_due. rewrite andb_true_iff, negb_true_iff.
  destruct (last_run t) as [lr|].
  - rewrite Qge_int_total_seconds. split.
    + intros [? ?]. split; [done|]. right. exists lr. split; [done|lia].
    + intros [? [?|(lr' & [= <-] & ?)]]; [done|]. split; [done|lia].
  - split; [intros [? _]; auto | intros [? _]; auto].
Qed.

Lemma elem_of_registry_values s l :
  l ∈ (map_to_list (tasks s)).*2 ↔ ∃ nm, tasks s !! nm = Some l.
Proof.
  rewrite list_elem_of_fmap. split.
  - intros ([nm l'] & -> & Hin). exists nm. by apply elem_of_map_to_list.
  - intros [nm Hnm]. exists (nm, l). split; [done|].
    by apply elem_of_map_to_list.
Qed.

Lemma elem_of_due_tasks now s l :
  l ∈ due_tasks now s ↔
  (∃ nm, tasks s !! nm = Some l) ∧ ∃ t, heap s !! l = Some t ∧ is_due now t = true.
Proof.
  unfold due_tasks. rewrite list_elem_of_filter, elem_of_registry_values.
  unfold is_due_at. split.
  - intros [Hd Hr]. split; [done|].
    destruct (heap s !! l) as [t|]; [|done]. by exists t.
  - intros [Hr (t & -> & Hd)]. done.
Qed.

(** C1. The poll loop creates an execution for a registered task exactly
    when the task is not running and either has never run or the time
    elapsed since [last_run] is at least its interval.  So a task with
    interval [N] and [last_run = T] is not selected before [T + N], a
    task that is not running is selected at or after [T + N], and a task
    that is not running and has [last_run] unset is selected at once. *)
Theorem poll_selects_exactly_due_tasks c now nm l t :
  running (sched c) = true →
  tasks (sched c) !! nm = Some l →
  heap (sched c) !! l = Some t →
  ready (_run_scheduler now c)
    = ready c ++ ((λ l', Exec l' AtStart) <$> due_tasks now (sched c)) ∧
  (l ∈ due_tasks now (sched c) ↔
     is_running t = false ∧
     (last_run t = None ∨
      ∃ lr, last_run t = Some lr ∧
            (inject_Z (interval t) <= total_seconds (now - lr))%Q)) ∧
  (∀ lr, last_run t = Some lr →
         now < lr + timedelta_seconds (interval t) →
         l ∉ due_tasks now (sched c)) ∧
  (∀ lr, last_run t = Some lr → is_running t = false →
         lr + timedelta_seconds (interval t) ≤ now →
         l ∈ due_tasks now (sched c)) ∧
  (last_run t = None → is_running t = false → l ∈ due_tasks now (sched c)).
Proof.
  intros Hrun Hnm Ht.
  assert (Hin : l ∈ due_tasks now (sched c) ↔ is_due now t = true).
  { rewrite elem_of_due_tasks. split.
    - intros [_ (t' & Ht' & Hd)]. congruence.
    - intros Hd. split; [by exists nm | by exists t]. }
  split; [|split; [|split; [|split]]].
  - unfold _run_scheduler. by rewrite Hrun.
  - rewrite Hin, is_due_true. split.
    + intros [? [?|(lr & Hlr & Hle)]]; split; auto.
      right. exists lr. split; [done|].
      by apply Qle_bool_iff, Qge_int_total_seconds; lia.
    + intros [? [?|(lr & Hlr & Hle)]]; split; auto.
      right. exists lr. split; [done|].
      apply Qle_bool_iff, Qge_int_total_seconds in Hle. lia.
  - intros lr Hlr Hlt. rewrite Hin, is_due_true.
    intros [_ [?|(lr' & ? & ?)]]; simplify_eq. lia.
  - intros lr Hlr Hnr Hle. rewrite Hin, is_due_true. split; [done|].
    right. by exists lr.
  - intros Hlr Hnr. rewrite Hin, is_due_true. auto.
Qed.

(** ** [add_task] *)

Lemma add_task_fresh s nm f iv kw :
  tasks s !! nm = None →
  add_task nm f iv kw s =
    Ok (set_tasks (<[nm := length (heap s)]> (tasks s))
          (set_heap
             (heap s ++
              [new_ScheduledTask nm f
                 match iv with
                 | None => default 3600 (default_intervals !! nm)
                 | Some i => i
                 end (Some kw)]) s)).
Proof. intros Hnm. unfold add_task. by rewrite Hnm. Qed.

Lemma add_task_existing s nm f iv kw l :
  tasks s !! nm = Some l →
  add_task nm f iv kw s = Raise (ValueError ("Task " ++ nm ++ " already exists")).
Proof. intros Hnm. unfold add_task. by rewrite Hnm. Qed.

(** C5. [add_task] with a name that is already registered raises the
    duplicate error ([ValueError "Task <name> already exists"]) and leaves
    the system as it was; so after two calls with one name the registry
    holds a single entry for it, the task built by the first call. *)
Theorem add_task_duplicate_rejected s nm f iv kw f' iv' kw' :
  (∀ l, tasks s !! nm = Some l →
        add_task nm f' iv' kw' s
          = Raise (ValueError ("Task " ++ nm ++ " already exists")) ∧
        ∀ c, sched c = s → with_sched (add_task nm f' iv' kw' s) c = c) ∧
  (tasks s !! nm = None →
   ∃ s1, add_task nm f iv kw s = Ok s1 ∧
         add_task nm f' iv' kw' s1
           = Raise (ValueError ("Task " ++ nm ++ " already exists")) ∧
         (∀ c, sched c = s1 → with_sched (add_task nm f' iv' kw' s1) c = c) ∧
         tasks s1 = <[nm := length (heap s)]> (tasks s) ∧
         size (tasks s1) = S (size (tasks s)) ∧
         heap s1 !! length (heap s)
           = Some (new_ScheduledTask nm f
                     match iv with
                     | None => default 3600 (default_intervals !! nm)
                     | Some i => i
                     end (Some kw))).
Proof.
  split.
  - intros l Hl. rewrite (add_task_existing _ _ _ _ _ _ Hl). done.
  - intros Hnm. eexists. split; [by apply add_task_fresh|].
    assert (Hl : tasks (set_tasks (<[nm := length (heap s)]> (tasks s))
                   (set_heap (heap s ++
                      [new_ScheduledTask nm f
                         match iv with
                         | None => default 3600 (default_intervals !! nm)
                         | Some i => i
                         end (Some kw)]) s)) !! nm = Some (length (heap s))).
    { simpl. by rewrite lookup_insert_eq. }
    rewrite (add_task_existing _ _ _ _ _ _ Hl). simpl.
    split_and!; try done.
    + by apply map_size_insert_None.
    + by apply list_lookup_middle.
Qed.

(** C9. When [interval] is omitted, [add_task] stores the entry of the
    table [default_intervals] for the task's name (3600 seconds for
    "knowledge_update", 300 for "health_check"), and 3600 seconds for a
    name that is not in the table; a supplied interval is stored as it
    is. *)
Theorem add_task_resolves_interval s nm f iv kw :
  tasks s !! nm = None →
  ∃ s' l t,
    add_task nm f iv kw s = Ok s' ∧
    tasks s' !! nm = Some l ∧ heap s' !! l = Some t ∧
    (∀ i, iv = Some i → interval t = i) ∧
    (∀ d, iv = None → default_intervals !! nm = Some d → interval t = d) ∧
    (iv = None → default_intervals !! nm = None → interval t = 3600) ∧
    default_intervals !! "knowledge_update" = Some 3600 ∧
    default_intervals !! "health_check" = Some 300.
Proof.
  intros Hnm. eexists _, (length (heap s)), _.
  split; [by apply add_task_fresh|]. simpl.
  split; [by rewrite lookup_insert_eq|].
  split; [by apply list_lookup_middle|]. simpl.
  split_and!; try done.
  - by intros i ->.
  - by intros d -> ->.
  - by intros -> ->.
Qed.

(** ** [run_task_now], [update_interval] and [get_status] *)

Lemma lookup_update_task f l s :
  heap (update_task f l s) !! l = f <$> heap s !! l.
Proof. apply list_lookup_alter_eq. Qed.

Lemma lookup_update_task_ne f l l' s :
  l ≠ l' → heap (update_task f l s) !! l' = heap s !! l'.
Proof. intros. by apply list_lookup_alter_ne. Qed.

Lemma due_tasks_unset s nm l t now :
  tasks s !! nm = Some l → heap s !! l = Some t →
  is_running t = false → last_run t = None → l ∈ due_tasks now s.
Proof.
  intros Hnm Ht Hr Hl. apply elem_of_due_tasks. split; [by exists nm|].
  exists t. split; [done|]. apply is_due_true. auto.
Qed.

(** C6. [run_task_now] raises the not-found error when the name is not
    registered and the busy error ([RuntimeError]) when the task is
    running; otherwise it only sets the task's [last_run] to unset, after
    which a poll at any instant selects the task. *)
Theorem run_task_now_spec s nm :
  (tasks s !! nm = None →
   run_task_now nm s = Raise (ValueError ("Task " ++ nm ++ " not found"))) ∧
  (∀ l t, tasks s !! nm = Some l → heap s !! l = Some t →
     is_running t = true →
     run_task_now nm s
       = Raise (RuntimeError ("Task " ++ nm ++ " is already running"))) ∧
  (∀ l t, tasks s !! nm = Some l → heap s !! l = Some t →
     is_running t = false →
     ∃ s', run_task_now nm s = Ok s' ∧
           s' = set_heap (<[l := set_last_run None t]> (heap s)) s ∧
           tasks s' = tasks s ∧ running s' = running s ∧ _lock s' = _lock s ∧
           (∀ l', l' ≠ l → heap s' !! l' = heap s !! l') ∧
           heap s' !! l =
             Some {| name := name t; func := func t; interval := interval t;
                     last_run := None; is_running := is_running t;
                     error_count := error_count t;
                     max_errors := max_errors t; args := args t;
                     kwargs := kwargs t |} ∧
           ∀ now, l ∈ due_tasks now s').
Proof.
  unfold run_task_now. split_and!.
  - by intros ->.
  - intros l t -> Ht Hr. unfold is_running_at. by rewrite Ht; simpl; rewrite Hr.
  - intros l t Hnm Ht Hr. rewrite Hnm. unfold is_running_at.
    rewrite Ht; simpl; rewrite Hr.
    assert (Hl : (l < length (heap s))%nat) by by eapply lookup_lt_Some.
    eexists. split; [done|].
    assert (Heq : update_task (set_last_run None) l s
                  = set_heap (<[l := set_last_run None t]> (heap s)) s).
    { unfold update_task. f_equal. apply list_eq. intros i.
      destruct (decide (i = l)) as [->|].
      - rewrite list_lookup_alter_eq, list_lookup_insert_eq, Ht by done. done.
      - by rewrite list_lookup_alter_ne, list_lookup_insert_ne. }
    rewrite Heq. simpl. split_and!; try done.
    + intros l' ?. by rewrite list_lookup_insert_ne.
    + rewrite list_lookup_insert_eq by done. unfold set_last_run. by rewrite Hr.
    + intros now. apply (due_tasks_unset _ nm l (set_last_run None t)); simpl.
      * done.
      * by rewrite list_lookup_insert_eq.
      * done.
      * done.
Qed.

(** C10. [update_interval] raises exactly when the name is not
    registered; it stores any interval, zero and negative ones included;
    and a task that is not running and whose interval is at most zero is
    selected by every poll whose clock reading is not before the task's
    [last_run]. *)
Theorem update_interval_unvalidated s nm iv :
  (raises (update_interval nm iv s) = true ↔ tasks s !! nm = None) ∧
  (∀ l t, tasks s !! nm = Some l → heap s !! l = Some t →
     ∃ s', update_interval nm iv s = Ok s' ∧
           tasks s' = tasks s ∧
           heap s' !! l = Some (set_interval iv t) ∧
           interval (set_interval iv t) = iv) ∧
  (∀ l t now, tasks s !! nm = Some l → heap s !! l = Some t →
     interval t ≤ 0 → is_running t = false →
     (∀ lr, last_run t = Some lr → lr ≤ now) →
     l ∈ due_tasks now s).
Proof.
  split_and!.
  - unfold update_interval. destruct (tasks s !! nm); simpl; split; done.
  - intros l t Hnm Ht. unfold update_interval. rewrite Hnm.
    eexists. split; [done|]. split; [done|].
    by rewrite lookup_update_task, Ht.
  - intros l t now Hnm Ht Hiv Hr Hmono.
    apply elem_of_due_tasks. split; [by exists nm|].
    exists t. split; [done|]. apply is_due_true. split; [done|].
    destruct (last_run t) as [lr|] eqn:Hlr; [|by left].
    right. exists lr. split; [done|].
    specialize (Hmono lr eq_refl). unfold timedelta_seconds. lia.
Qed.

Section Status.

Context (isoformat : datetime → string).


End Status.

(** ** What the segments change *)

Lemma heap_del_task nm s : heap (segment_state (del_task nm s)) = heap s.
Proof. unfold del_task. by destruct (tasks s !! nm). Qed.

Lemma heap_remove_task now nm s :
  heap (segment_state (remove_task now nm s)) = heap s.
Proof.
  unfold remove_task. destruct (tasks s !! nm); [|done].
  repeat case_match; try done; apply heap_del_task.
Qed.

Lemma heap_remove_task_resume now nm l st s :
  heap (segment_state (remove_task_resume now nm l st s)) = heap s.
Proof.
  unfold remove_task_resume. case_match; [done|]. apply heap_del_task.
Qed.

Lemma tasks_del_task nm s nm' l :
  tasks (segment_state (del_task nm s)) !! nm' = Some l →
  nm' ≠ nm ∧ tasks s !! nm' = Some l.
Proof.
  unfold del_task. destruct (tasks s !! nm) eqn:Hnm; simpl.
  - intros Hd. apply lookup_delete_Some in Hd as [? ?]. split; [congruence|done].
  - intros Hd. split; [|done]. congruence.
Qed.

Lemma tasks_remove_task now nm s nm' l :
  tasks (segment_state (remove_task now nm s)) !! nm' = Some l →
  tasks s !! nm' = Some l.
Proof.
  unfold remove_task. destruct (tasks s !! nm) eqn:Hnm; [|done].
  repeat case_match; try done; intros Hd; by apply tasks_del_task in Hd as [_ ?].
Qed.

Lemma tasks_remove_task_resume now nm l0 st s nm' l :
  tasks (segment_state (remove_task_resume now nm l0 st s)) !! nm' = Some l →
  tasks s !! nm' = Some l.
Proof.
  unfold remove_task_resume. case_match; [done|].
  intros Hd. by apply tasks_del_task in Hd as [_ ?].
Qed.

(** A segment of [remove_task] that does not end at an [await] leaves the
    name unregistered. *)
Lemma remove_task_unregisters now nm s :
  match remove_task now nm s with
  | Await _ _ _ => True
  | Done s' | Raised _ s' => tasks s' !! nm = None
  end.
Proof.
  unfold remove_task, del_task. destruct (tasks s !! nm) eqn:Hnm; [|done].
  repeat case_match; simplify_eq; simpl; try done; apply lookup_delete_eq.
Qed.


Lemma handler_remove_spec now l s s' r :
  handler_remove now l s = (s', r) →
  heap s' = heap s ∧
  (∀ nm l', tasks s' !! nm = Some l' → tasks s !! nm = Some l') ∧
  match r with
  | Finished _ => tasks s' !! name_at l s = None
  | Suspended pc => pc = AtLock ∨ ∃ target st, pc = AtWait target st
  end.
Proof.
  unfold handler_remove. destruct (_lock s).
  { intros [= <- <-]. split_and!; eauto. }
  pose proof (heap_remove_task now (name_at l s) s) as Hh.
  pose proof (tasks_remove_task now (name_at l s) s) as Ht.
  pose proof (remove_task_unregisters now (name_at l s) s) as Hu.
  destruct (remove_task now (name_at l s) s) as [s1|e s1|tg st s1];
    simpl in *; intros [= <- <-]; split_and!; eauto.
Qed.

Lemma try_except_spec now l pc s s' r :
  try_except now l pc s = (s', r) →
  length (heap s') = length (heap s) ∧
  (∀ l', l' ≠ l → heap s' !! l' = heap s !! l') ∧
  (∀ t, heap s !! l = Some t →
     ∃ t', heap s' !! l = Some t' ∧ name t' = name t ∧
           max_errors t' = max_errors t ∧
           is_running t' = if pc is AtStart then true else is_running t) ∧
  (∀ nm l', tasks s' !! nm = Some l' → tasks s !! nm = Some l') ∧
  match r with
  | Finished _ => True
  | Suspended pc' => pc' ≠ AtStart
  end.
Proof.
  assert (Hupd : ∀ f s0 r0,
    (∀ t, name (f t) = name t ∧ max_errors (f t) = max_errors t ∧
          is_running (f t) = if pc is AtStart then true else is_running t) →
    heap s0 = heap (update_task f l s) →
    (∀ nm l', tasks s0 !! nm = Some l' → tasks s !! nm = Some l') →
    match r0 with Finished _ => True | Suspended pc' => pc' ≠ AtStart end →
    length (heap s0) = length (heap s) ∧
    (∀ l', l' ≠ l → heap s0 !! l' = heap s !! l') ∧
    (∀ t, heap s !! l = Some t →
       ∃ t', heap s0 !! l = Some t' ∧ name t' = name t ∧
             max_errors t' = max_errors t ∧
             is_running t' = if pc is AtStart then true else is_running t) ∧
    (∀ nm l', tasks s0 !! nm = Some l' → tasks s !! nm = Some l') ∧
    match r0 with Finished _ => True | Suspended pc' => pc' ≠ AtStart end).
  { intros f s0 r0 Hf Hh Ht Hr. rewrite Hh. split_and!; try done.
    - apply length_alter.
    - intros l' ?. by apply list_lookup_alter_ne.
    - intros t Hl. exists (f t). rewrite lookup_update_task, Hl.
      destruct (Hf t) as (? & ? & ?). done. }
  assert (Hsame : ∀ s0 r0,
    pc ≠ AtStart → heap s0 = heap s →
    (∀ nm l', tasks s0 !! nm = Some l' → tasks s !! nm = Some l') →
    match r0 with Finished _ => True | Suspended pc' => pc' ≠ AtStart end →
    length (heap s0) = length (heap s) ∧
    (∀ l', l' ≠ l → heap s0 !! l' = heap s !! l') ∧
    (∀ t, heap s !! l = Some t →
       ∃ t', heap s0 !! l = Some t' ∧ name t' = name t ∧
             max_errors t' = max_errors t ∧
             is_running t' = if pc is AtStart then true else is_running t) ∧
    (∀ nm l', tasks s0 !! nm = Some l' → tasks s !! nm = Some l') ∧
    match r0 with Finished _ => True | Suspended pc' => pc' ≠ AtStart end).
  { intros s0 r0 Hpc Hh Ht Hr. rewrite Hh. split_and!; try done.
    intros t Hl. exists t. by destruct pc. }
  destruct pc as [| |[|e]| |target st]; simpl.
  - intros [= <- <-].
    by apply (Hupd (λ t, set_last_run (Some now) (set_is_running true t))
                _ (Suspended AtWork)).
  - intros [= <- <-]. by apply (Hsame _ (Suspended AtWork)).
  - intros [= <- <-]. by apply (Hupd (set_error_count 0) _ (Finished None)).
  - destruct (isinstance_Exception e).
    + unfold except_Exception. case_match.
      * intros Hrm. apply handler_remove_spec in Hrm as (Hh & Ht & Hr).
        apply (Hupd (λ t, set_error_count (error_count t + 1) t) s' r);
          [done|done|..].
        -- intros nm l' Hl'. by apply Ht in Hl'.
        -- destruct r; [|done]. by destruct Hr as [->|(? & ? & ->)].
      * intros [= <- <-].
        by apply (Hupd (λ t, set_error_count (error_count t + 1) t)
                    _ (Finished None)).
    + intros [= <- <-]. by apply (Hsame _ (Finished (Some e))).
  - intros Hrm. apply handler_remove_spec in Hrm as (Hh & Ht & Hr).
    apply (Hsame s' r); try done.
    destruct r; [|done]. by destruct Hr as [->|(? & ? & ->)].
  - pose proof (heap_remove_task_resume now (name_at l s) target st s) as Hh.
    pose proof (tasks_remove_task_resume now (name_at l s) target st s) as Ht.
    destruct (remove_task_resume now (name_at l s) target st s)
      as [s1|e s1|tg st' s1]; simpl in *; intros [= <- <-].
    + by apply (Hsame _ (Finished None)).
    + by apply (Hsame _ (Finished (Some e))).
    + by apply (Hsame _ (Suspended (AtWait tg st'))).
Qed.

Lemma try_finally_Finished l (x : @TaskScheduler Callable Any * exec_result) s' e :
  try_finally l x = (s', Finished e) →
  x.2 = Finished e ∧ s' = update_task (set_is_running false) l x.1.
Proof. destruct x as [s1 [pc|e']]; simpl; intros [= <- <-]; done. Qed.

(** C7. Whenever an execution finishes -- the work returned, the work
    raised (an [Exception] or not), or [remove_task] raised inside the
    handler -- the [is_running] flag of its task object is false. *)
Theorem finally_clears_is_running now l pc s t s' e :
  heap s !! l = Some t →
  _execute_task now l pc s = (s', Finished e) →
  ∃ t', heap s' !! l = Some t' ∧ is_running t' = false.
Proof.
  intros Ht Hex. unfold _execute_task in Hex.
  destruct (try_except now l pc s) as [s1 r] eqn:Hte.
  apply try_finally_Finished in Hex as [_ ->]. simpl.
  apply try_except_spec in Hte as (_ & _ & Hl & _).
  destruct (Hl t Ht) as (t1 & Ht1 & _).
  exists (set_is_running false t1). by rewrite list_lookup_alter_eq, Ht1.
Qed.

(** ** The coroutines of a configuration *)

Lemma elem_of_coro_ids_exec (hs : list coro) l :
  Some l ∈ omap coro_id hs ↔ ∃ pc, Exec l pc ∈ hs.
Proof.
  rewrite list_elem_of_omap. split.
  - intros ([|l' pc|] & Hin & Hid); simplify_eq/=. by exists pc.
  - intros [pc Hin]. by exists (Exec l pc).
Qed.

Lemma elem_of_coro_ids_poll (hs : list coro) :
  None ∈ omap coro_id hs ↔ Poll ∈ hs.
Proof.
  rewrite list_elem_of_omap. split.
  - intros ([|l' pc|] & Hin & Hid); simplify_eq/=. done.
  - intros Hin. by exists Poll.
Qed.

Lemma elem_of_executions c l :
  l ∈ executions c ↔ ∃ pc, Exec l pc ∈ coros c.
Proof.
  unfold executions. rewrite list_elem_of_omap. split.
  - intros ([|l' pc|] & Hin & Hid); simplify_eq/=. by exists pc.
  - intros [pc Hin]. by exists (Exec l pc).
Qed.

Lemma NoDup_executions c : unique_coros c → NoDup (executions c).
Proof.
  unfold unique_coros, executions. induction (coros c) as [|h hs IH]; simpl.
  { intros _. constructor. }
  destruct h as [|l pc|]; simpl.
  - intros Hnd. apply NoDup_cons in Hnd as [_ ?]. auto.
  - intros Hnd. apply NoDup_cons in Hnd as [Hnin ?]. constructor; [|auto].
    intros Hin. apply Hnin. apply elem_of_coro_ids_exec.
    apply list_elem_of_omap in Hin as ([|l' pc'|] & Hin & Hid); simplify_eq/=.
    by exists pc'.
  - auto.
Qed.

Lemma behind_poll_subseteq (q : list coro) x : x ∈ behind_poll q → x ∈ q.
Proof.
  induction q as [|h q IH]; simpl; [done|].
  destruct h; intros Hin; apply elem_of_cons; auto.
Qed.

Lemma behind_poll_app_no_poll (q k : list coro) :
  Poll ∉ q → behind_poll (q ++ k) = behind_poll k.
Proof.
  induction q as [|h q IH]; simpl; [done|].
  intros Hnin. apply not_elem_of_cons in Hnin as [Hne Hnin].
  destruct h; [done|auto..].
Qed.

Lemma elem_of_behind_poll_app (q k : list coro) x :
  x ∈ behind_poll (q ++ k) → x ∈ behind_poll q ∨ x ∈ k.
Proof.
  induction q as [|h q IH]; simpl.
  - intros Hin. right. by apply behind_poll_subseteq.
  - destruct h; [|auto..]. intros Hin. by apply elem_of_app in Hin.
Qed.

Lemma NoDup_due_tasks now s : registry_ok s → NoDup (due_tasks now s).
Proof.
  intros Hreg. unfold due_tasks. apply NoDup_filter.
  apply NoDup_fmap_2_strong; [|apply NoDup_map_to_list].
  intros [nm1 l1] [nm2 l2] H1 H2 Heq. simpl in Heq. subst l2.
  apply elem_of_map_to_list in H1, H2.
  destruct (Hreg _ _ H1) as (t1 & Ht1 & <-).
  destruct (Hreg _ _ H2) as (t2 & Ht2 & <-).
  congruence.
Qed.

Lemma due_tasks_not_running now s l t :
  l ∈ due_tasks now s → heap s !! l = Some t → is_running t = false.
Proof.
  intros Hin Ht. apply elem_of_due_tasks in Hin as [_ (t' & Ht' & Hd)].
  simplify_eq. by apply is_due_true in Hd as [? _].
Qed.

(** ** The invariant holds in every reachable configuration *)

Lemma invariant_started : invariant (@started Callable Any).
Proof.
  split.
  - intros nm l Hl. simpl in Hl. by rewrite lookup_empty in Hl.
  - unfold unique_coros. simpl. apply NoDup_singleton.
  - intros l pc Hin. simpl in Hin. by apply list_elem_of_singleton in Hin.
  - split; intros l Hin; simpl in Hin; by apply elem_of_nil in Hin.
Qed.

Lemma registry_ok_frame s s' :
  registry_ok s →
  (∀ nm l, tasks s' !! nm = Some l → tasks s !! nm = Some l) →
  (∀ l t, heap s !! l = Some t →
          ∃ t', heap s' !! l = Some t' ∧ name t' = name t) →
  registry_ok s'.
Proof.
  intros Hreg Ht Hh nm l Hl. apply Ht in Hl.
  destruct (Hreg _ _ Hl) as (t & Hlt & <-).
  destruct (Hh _ _ Hlt) as (t' & ? & ?). by exists t'.
Qed.

Lemma registry_ok_add_task s nm f iv kw s' :
  registry_ok s → add_task nm f iv kw s = Ok s' → registry_ok s'.
Proof.
  intros Hreg. unfold add_task. destruct (tasks s !! nm) eqn:Hnm; [done|].
  intros [= <-] nm' l. simpl. rewrite lookup_insert.
  case_decide as Heq.
  - intros [= <-]. subst nm'. eexists. split; [by apply list_lookup_middle|done].
  - intros Hl. destruct (Hreg _ _ Hl) as (t & Hlt & ?).
    exists t. split; [|done]. by apply lookup_app_l_Some.
Qed.

Lemma heap_add_task s nm f iv kw s' l t :
  add_task nm f iv kw s = Ok s' → heap s !! l = Some t → heap s' !! l = Some t.
Proof.
  unfold add_task. destruct (tasks s !! nm); [done|].
  intros [= <-] Hl. simpl. by apply lookup_app_l_Some.
Qed.

(** A change of the scheduler state that keeps the registry sound and
    every task object's running flag keeps the invariant. *)
Lemma invariant_set_sched c s' :
  invariant c → registry_ok s' →
  (∀ l t, heap (sched c) !! l = Some t →
          ∃ t', heap s' !! l = Some t' ∧ is_running t' = is_running t) →
  invariant {| sched := s'; ready := ready c; waiting := waiting c |}.
Proof.
  intros [Hreg Hu Hm Hf] Hreg' Hh. split; try done.
  intros l pc Hin. destruct (Hm l pc Hin) as (t & Ht & Hr).
  destruct (Hh _ _ Ht) as (t' & Ht' & Hr'). exists t'. simpl.
  split; [done|]. rewrite Hr'. done.
Qed.

Lemma invariant_spawn_remover c nm target st :
  invariant c →
  invariant {| sched := sched c; ready := ready c;
               waiting := waiting c ++ [Remover nm target st] |}.
Proof.
  intros [Hreg Hu Hm Hf]. split; try done.
  - unfold unique_coros, coros in *. simpl.
    rewrite !omap_app in *. simpl. by rewrite app_nil_r.
  - intros l pc Hin. apply Hm. unfold coros in *. simpl in Hin.
    rewrite app_assoc in Hin. apply elem_of_app in Hin as [?|Hin]; [done|].
    by apply list_elem_of_singleton in Hin.
  - destruct Hf as [Hw Hb]. split; [|done]. intros l Hin. simpl in Hin.
    apply elem_of_app in Hin as [Hin|Hin]; [by apply Hw in Hin|].
    by apply list_elem_of_singleton in Hin.
Qed.

Lemma invariant_update_task c f l :
  (∀ t, name (f t) = name t ∧ is_running (f t) = is_running t) →
  invariant c →
  invariant {| sched := update_task f l (sched c);
               ready := ready c; waiting := waiting c |}.
Proof.
  intros Hf Hinv. apply (invariant_set_sched c); [done|..].
  - eapply registry_ok_frame; [apply Hinv|done|].
    intros l' t Ht. destruct (decide (l' = l)) as [->|].
    + exists (f t). rewrite lookup_update_task, Ht. split; [done|apply Hf].
    + exists t. by rewrite lookup_update_task_ne.
  - intros l' t Ht. destruct (decide (l' = l)) as [->|].
    + exists (f t). rewrite lookup_update_task, Ht. split; [done|apply Hf].
    + exists t. by rewrite lookup_update_task_ne.
Qed.

Lemma invariant_remove_segment c (r : @segment Callable Any) :
  invariant c →
  heap (segment_state r) = heap (sched c) →
  (∀ nm l, tasks (segment_state r) !! nm = Some l →
           tasks (sched c) !! nm = Some l) →
  invariant {| sched := segment_state r; ready := ready c; waiting := waiting c |}.
Proof.
  intros Hinv Hh Ht. apply (invariant_set_sched c); [done|..].
  - eapply registry_ok_frame; [apply Hinv|done|].
    intros l t Hl. exists t. by rewrite Hh.
  - intros l t Hl. exists t. by rewrite Hh.
Qed.

Lemma invariant_call c now cl c' :
  invariant c → do_call now cl c = Some c' → invariant c'.
Proof.
  intros Hinv. destruct cl as [nm f iv kw|nm|nm iv|nm| |]; simpl.
  - destruct (_lock (sched c)); [done|]. intros [= <-].
    destruct (add_task nm f iv kw (sched c)) as [s'|e] eqn:Hadd; simpl; [|done].
    apply (invariant_set_sched c); [done|..].
    + eapply registry_ok_add_task; [apply Hinv|done].
    + intros l t Hl. exists t. split; [|done]. by eapply heap_add_task.
  - destruct (_lock (sched c)); [done|]. intros [= <-].
    pose proof (heap_remove_task now nm (sched c)) as Hh.
    pose proof (tasks_remove_task now nm (sched c)) as Ht.
    destruct (remove_task now nm (sched c)) as [s1|e s1|tg st s1] eqn:Hrm.
    + by apply (invariant_remove_segment c (Done s1)).
    + by apply (invariant_remove_segment c (Raised e s1)).
    + apply (invariant_spawn_remover
               {| sched := s1; ready := ready c; waiting := waiting c |}).
      by apply (invariant_remove_segment c (Await tg st s1)).
  - destruct (_lock (sched c)); [done|]. intros [= <-].
    unfold update_interval. destruct (tasks (sched c) !! nm); simpl; [|by destruct c].
    by apply invariant_update_task.
  - intros [= <-]. unfold run_task_now.
    destruct (tasks (sched c) !! nm); simpl; [|by destruct c].
    destruct (is_running_at _ _); simpl; [by destruct c|].
    by apply invariant_update_task.
  - by intros [= <-].
  - intros [= <-]. apply (invariant_set_sched c); [done|apply Hinv|].
    intros l t Hl. by exists t.
Qed.

Lemma _execute_task_spec now l pc s s' r :
  _execute_task now l pc s = (s', r) →
  (∀ l', l' ≠ l → heap s' !! l' = heap s !! l') ∧
  (∀ t, heap s !! l = Some t →
     ∃ t', heap s' !! l = Some t' ∧ name t' = name t ∧
           max_errors t' = max_errors t ∧
           is_running t' =
             match r with
             | Finished _ => false
             | Suspended _ => if pc is AtStart then true else is_running t
             end) ∧
  (∀ nm l', tasks s' !! nm = Some l' → tasks s !! nm = Some l') ∧
  match r with
  | Finished _ => True
  | Suspended pc' => pc' ≠ AtStart
  end.
Proof.
  unfold _execute_task. destruct (try_except now l pc s) as [s1 r1] eqn:Hte.
  apply try_except_spec in Hte as (Hlen & Hne & Hl & Ht & Hr).
  destruct r1 as [pc1|e1]; simpl; intros [= <- <-].
  - done.
  - split_and!; try done.
    + intros l' ?. rewrite lookup_update_task_ne by done. auto.
    + intros t Hlt. destruct (Hl t Hlt) as (t1 & Ht1 & ? & ? & ?).
      exists (set_is_running false t1).
      by rewrite lookup_update_task, Ht1.
Qed.

(** Taking the head off the ready queue keeps the invariant. *)
Lemma invariant_pop c h rest :
  invariant c → ready c = h :: rest →
  invariant {| sched := sched c; ready := rest; waiting := waiting c |}.
Proof.
  intros [Hreg Hu Hm Hf] Hq. split; try done.
  - unfold unique_coros, coros in *. rewrite Hq in Hu. simpl in *.
    destruct (coro_id h); [|done]. by apply NoDup_cons in Hu as [_ ?].
  - intros l pc Hin. apply Hm. unfold coros in *. rewrite Hq. simpl.
    by apply elem_of_cons; right.
  - destruct Hf as [Hw Hb]. split; [done|]. simpl. intros l Hin.
    apply (Hb l). rewrite Hq. destruct h; simpl; [|done..].
    by apply behind_poll_subseteq.
Qed.

Lemma invariant_wake c i o h :
  invariant c → waiting c !! i = Some h →
  invariant {| sched := sched c; ready := ready c ++ [resume h o];
               waiting := delete i (waiting c) |}.
Proof.
  intros [Hreg Hu Hm [Hw Hb]] Hi.
  assert (Hh : h ∈ waiting c) by (apply list_elem_of_lookup; eauto).
  assert (Hid : coro_id (resume h o) = coro_id h).
  { by destruct h as [|l []|]. }
  split; try done.
  - unfold unique_coros, coros in *. simpl.
    rewrite !omap_app in *. simpl. rewrite Hid.
    rewrite (omap_Permutation coro_id _ _ (delete_Permutation _ _ _ Hi)) in Hu.
    simpl in Hu. destruct (coro_id h); simpl.
    + revert Hu. apply NoDup_Permutation_proper. solve_Permutation.
    + by rewrite app_nil_r.
  - intros l pc Hin. unfold coros in Hin. simpl in Hin.
    apply elem_of_app in Hin as [Hin|Hin];
      [apply elem_of_app in Hin as [Hin|Hin]|].
    + apply Hm. apply elem_of_app. by left.
    + apply list_elem_of_singleton in Hin.
      destruct h as [|l' pc'|]; try done.
      assert (Hpc' : pc' ≠ AtStart) by (intros ->; by apply (Hw l')).
      destruct (Hm l' pc') as (t & Ht & Hr).
      { apply elem_of_app. by right. }
      destruct pc'; simplify_eq/=; exists t; split; auto.
    + apply Hm. apply elem_of_app. right.
      by eapply list_elem_of_delete_inv.
  - split; simpl.
    + intros l Hin. apply (Hw l). by eapply list_elem_of_delete_inv.
    + intros l Hin. apply elem_of_behind_poll_app in Hin as [Hin|Hin].
      * by apply (Hb l).
      * apply list_elem_of_singleton in Hin.
        destruct h as [|l' pc'|]; try done.
        destruct pc'; simplify_eq/=. by apply (Hw l').
Qed.

Lemma coro_ids_starts (ls : list loc) :
  omap coro_id ((λ l, Exec l AtStart) <$> ls) = Some <$> ls.
Proof. induction ls as [|l ls IH]; simpl; [done|]. by f_equal. Qed.

Lemma behind_poll_nil (q : list coro) : Poll ∉ q → behind_poll q = [].
Proof.
  intros Hnin. rewrite <- (app_nil_r q). by rewrite behind_poll_app_no_poll.
Qed.

Lemma invariant_run_poll c rest now :
  invariant c → ready c = Poll :: rest →
  invariant (_run_scheduler now
               {| sched := sched c; ready := rest; waiting := waiting c |}).
Proof.
  intros Hinv Hq.
  pose proof (invariant_pop c Poll rest Hinv Hq) as [Hreg0 Hu0 Hm0 [Hw0 Hb0]].
  destruct Hinv as [Hreg Hu Hm [Hw Hb]].
  assert (Hpoll : Poll ∉ rest ++ waiting c).
  { unfold unique_coros, coros in Hu. rewrite Hq in Hu. simpl in Hu.
    apply NoDup_cons in Hu as [Hnin _]. intros Hin. apply Hnin.
    by apply elem_of_coro_ids_poll. }
  assert (Hstart : ∀ l, Exec l AtStart ∉ rest ++ waiting c).
  { intros l Hin. apply elem_of_app in Hin as [Hin|Hin].
    - apply (Hb l). by rewrite Hq.
    - by apply (Hw l). }
  unfold _run_scheduler. simpl. destruct (running (sched c)); [|done].
  split; simpl in *.
  - done.
  - unfold unique_coros, coros in *. simpl in *.
    rewrite !omap_app, coro_ids_starts in *. simpl.
    assert (Hnd : NoDup ((None :: omap coro_id rest ++ omap coro_id (waiting c))
                         ++ (Some <$> due_tasks now (sched c)))).
    { apply NoDup_app. split_and!.
      - rewrite Hq in Hu. by simpl in Hu.
      - intros x Hx Hx'. apply list_elem_of_fmap in Hx' as (l & -> & Hl).
        apply elem_of_cons in Hx as [?|Hx]; [done|].
        rewrite <- omap_app in Hx.
        apply elem_of_coro_ids_exec in Hx as [pc Hpc].
        destruct (Hm0 l pc Hpc) as (t & Ht & Hr). simpl in Ht.
        pose proof (due_tasks_not_running _ _ _ _ Hl Ht) as Hnr.
        destruct pc; [by apply (Hstart l)|rewrite Hr in Hnr; done..].
      - apply NoDup_fmap_2; [apply _|]. by apply NoDup_due_tasks. }
    revert Hnd. apply NoDup_Permutation_proper. solve_Permutation.
  - intros l pc Hin. unfold coros in Hin. simpl in Hin.
    apply elem_of_app in Hin as [Hin|Hin];
      apply elem_of_app in Hin as [Hin|Hin].
    + apply Hm0. apply elem_of_app. by left.
    + apply list_elem_of_fmap in Hin as (l' & [= -> ->] & Hl').
      apply elem_of_due_tasks in Hl' as [_ (t & Ht & _)].
      exists t. done.
    + apply Hm0. apply elem_of_app. by right.
    + by apply list_elem_of_singleton in Hin.
  - split.
    + intros l Hin. apply elem_of_app in Hin as [Hin|Hin].
      * by apply (Hw0 l).
      * by apply list_elem_of_singleton in Hin.
    + intros l Hin. rewrite behind_poll_nil in Hin; [by apply elem_of_nil in Hin|].
      intros Hp. apply elem_of_app in Hp as [Hp|Hp].
      * apply Hpoll. apply elem_of_app. by left.
      * by apply list_elem_of_fmap in Hp as (? & ? & ?).
Qed.

Lemma invariant_run_exec c l pc rest now :
  invariant c → ready c = Exec l pc :: rest →
  invariant (run_coro now (Exec l pc)
               {| sched := sched c; ready := rest; waiting := waiting c |}).
Proof.
  intros Hinv Hq.
  pose proof (invariant_pop c _ rest Hinv Hq) as [Hreg0 Hu0 Hm0 [Hw0 Hb0]].
  destruct Hinv as [Hreg Hu Hm [Hw Hb]].
  assert (Hfresh : ∀ pc0, Exec l pc0 ∉ rest ++ waiting c).
  { unfold unique_coros, coros in Hu. rewrite Hq in Hu. simpl in Hu.
    apply NoDup_cons in Hu as [Hnin _]. intros pc0 Hin. apply Hnin.
    apply elem_of_coro_ids_exec. by exists pc0. }
  destruct (Hm l pc) as (t & Ht & Hr).
  { unfold coros. rewrite Hq. by apply elem_of_cons; left. }
  simpl. destruct (_execute_task now l pc (sched c)) as [s' r] eqn:Hex.
  apply _execute_task_spec in Hex as (Hne & Hl & Htk & Hpc').
  destruct (Hl t Ht) as (t' & Ht' & Hname & _ & Hrun).
  assert (Hreg' : registry_ok s').
  { eapply registry_ok_frame; [exact Hreg|done|].
    intros l0 t0 Ht0. destruct (decide (l0 = l)) as [->|Hl0].
    - exists t'. split; [done|]. congruence.
    - exists t0. by rewrite Hne. }
  assert (Hold : ∀ l0 pc0, Exec l0 pc0 ∈ rest ++ waiting c →
            ∃ t0, heap s' !! l0 = Some t0 ∧ (pc0 ≠ AtStart → is_running t0 = true)).
  { intros l0 pc0 Hin. destruct (Hm0 l0 pc0 Hin) as (t0 & Ht0 & Hr0).
    exists t0. split; [|done]. rewrite Hne; [done|].
    intros ->. by apply (Hfresh pc0). }
  destruct r as [pc'|e]; split; simpl; try done.
  - unfold unique_coros, coros in *. simpl in *. rewrite Hq in Hu. simpl in Hu.
    rewrite !omap_app in *. simpl.
    revert Hu. apply NoDup_Permutation_proper. solve_Permutation.
  - intros l0 pc0 Hin. unfold coros in Hin. simpl in Hin.
    rewrite app_assoc in Hin. apply elem_of_app in Hin as [Hin|Hin]; [by apply Hold|].
    apply list_elem_of_singleton in Hin as [= -> ->].
    exists t'. split; [done|]. intros _. rewrite Hrun.
    destruct pc; auto; by apply Hr.
  - split; [|done]. intros l0 Hin.
    apply elem_of_app in Hin as [Hin|Hin]; [by apply (Hw0 l0)|].
    by apply list_elem_of_singleton in Hin as [= -> <-].
Qed.

Lemma invariant_run_remover c nm target st rest now :
  invariant c → ready c = Remover nm target st :: rest →
  invariant (run_coro now (Remover nm target st)
               {| sched := sched c; ready := rest; waiting := waiting c |}).
Proof.
  intros Hinv Hq. pose proof (invariant_pop c _ rest Hinv Hq) as Hinv0.
  simpl.
  pose proof (heap_remove_task_resume now nm target st (sched c)) as Hh.
  pose proof (tasks_remove_task_resume now nm target st (sched c)) as Ht.
  destruct (remove_task_resume now nm target st (sched c))
    as [s1|e s1|tg st' s1].
  - by apply (invariant_remove_segment
                {| sched := sched c; ready := rest; waiting := waiting c |}
                (Done s1)).
  - by apply (invariant_remove_segment
                {| sched := sched c; ready := rest; waiting := waiting c |}
                (Raised e s1)).
  - apply (invariant_spawn_remover
             {| sched := s1; ready := rest; waiting := waiting c |}).
    by apply (invariant_remove_segment
                {| sched := sched c; ready := rest; waiting := waiting c |}
                (Await tg st' s1)).
Qed.

Lemma invariant_step c ev c' :
  invariant c → step ev c = Some c' → invariant c'.
Proof.
  intros Hinv. destruct ev as [now|i o|now cl]; simpl.
  - destruct (ready c) as [|h rest] eqn:Hq; [done|]. intros [= <-].
    destruct h as [|l pc|nm target st].
    + by apply invariant_run_poll.
    + by apply invariant_run_exec.
    + by apply invariant_run_remover.
  - destruct (waiting c !! i) as [h|] eqn:Hi; [|done]. intros [= <-].
    by apply invariant_wake.
  - by apply invariant_call.
Qed.

Theorem reachable_invariant c : reachable c → invariant c.
Proof.
  induction 1 as [|ev c c' _ IH Hstep].
  - apply invariant_started.
  - by eapply invariant_step.
Qed.

Lemma reachable_run evs c c' :
  reachable c → run evs c = Some c' → reachable c'.
Proof.
  revert c. induction evs as [|ev evs IH]; simpl; intros c Hc.
  - by intros [= <-].
  - destruct (step ev c) as [c1|] eqn:Hstep; [|done].
    apply IH. by eapply reachable_step.
Qed.

Lemma marked_not_due c l pc now :
  invariant c → Exec l pc ∈ coros c → pc ≠ AtStart →
  is_running_at l (sched c) = true ∧ l ∉ due_tasks now (sched c).
Proof.
  intros Hinv Hin Hpc. destruct (inv_marked c Hinv l pc Hin) as (t & Ht & Hr).
  specialize (Hr Hpc). split.
  - unfold is_running_at. by rewrite Ht.
  - intros Hd. pose proof (due_tasks_not_running _ _ _ _ Hd Ht). congruence.
Qed.

(** C2. In every configuration the system can reach -- whatever the
    interleaving of the poll loop, the executions and the calls of
    [run_task_now] and of the other operations -- no task object has two
    executions; an execution that has started has its task marked
    [is_running], so no poll selects that task; and when the poll loop is
    about to run, no task it would select has an execution, started or
    not. *)
Theorem no_self_overlap c :
  reachable c →
  NoDup (executions c) ∧
  (∀ l pc now, Exec l pc ∈ coros c → pc ≠ AtStart →
     is_running_at l (sched c) = true ∧ l ∉ due_tasks now (sched c)) ∧
  (∀ rest now l, ready c = Poll :: rest →
     l ∈ due_tasks now (sched c) → l ∉ executions c).
Proof.
  intros Hreach. pose proof (reachable_invariant c Hreach) as Hinv.
  split_and!.
  - apply NoDup_executions, Hinv.
  - intros l pc now Hin Hpc. by apply (marked_not_due c l pc).
  - intros rest now l Hq Hd Hex.
    apply elem_of_executions in Hex as [pc Hin].
    destruct pc;
      try (by eapply (marked_not_due c l _ now Hinv Hin)).
    destruct (inv_fifo c Hinv) as [Hw Hb].
    unfold coros in Hin. rewrite Hq in Hin.
    apply elem_of_cons in Hin as [?|Hin]; [done|].
    apply elem_of_app in Hin as [Hin|Hin].
    + apply (Hb l). by rewrite Hq.
    + by apply (Hw l).
Qed.

(** ** The error counter and the removal of a failing task *)

Lemma handler_remove_heap now l s :
  heap (handler_remove now l s).1 = heap s.
Proof.
  destruct (handler_remove now l s) as [s' r] eqn:Hrm.
  by apply handler_remove_spec in Hrm as [? _].
Qed.











(** ** A task whose work always raises *)

Lemma failing_execution_below e now0 now1 now2 l s t :
  isinstance_Exception e = true → heap s !! l = Some t →
  error_count t + 1 < max_errors t →
  ∃ s', failing_execution e now0 now1 now2 l s = (s', Finished None) ∧
        tasks s' = tasks s ∧ _lock s' = _lock s ∧
        heap s' !! l =
          Some (set_is_running false
                  (set_error_count (error_count t + 1)
                     (set_last_run (Some now0) (set_is_running true t)))).
Proof.
  intros He Ht Hlt. unfold failing_execution, _execute_task. simpl.
  rewrite He. unfold except_Exception.
  set (s1 := update_task (λ t', set_last_run (Some now0) (set_is_running true t')) l s).
  set (s2 := update_task (λ t', set_error_count (error_count t' + 1) t') l s1).
  assert (Ht2 : heap s2 !! l =
            Some (set_error_count (error_count t + 1)
                    (set_last_run (Some now0) (set_is_running true t)))).
  { unfold s2, s1. by rewrite !lookup_update_task, Ht. }
  assert (Htest : (max_errors_at l s2 <=? error_count_at l s2) = false).
  { unfold max_errors_at, error_count_at. rewrite Ht2. simpl.
    apply Z.leb_gt. lia. }
  rewrite Htest. simpl. eexists. split; [done|]. split_and!; try done.
  by rewrite lookup_update_task, Ht2.
Qed.

Lemma failing_execution_reaches e now0 now1 now2 l s t :
  isinstance_Exception e = true → heap s !! l = Some t →
  max_errors t ≤ error_count t + 1 →
  _lock s = false → tasks s !! name t = Some l →
  timedelta_seconds 30 < now2 - now1 →
  ∃ s', failing_execution e now0 now1 now2 l s = (s', Finished None) ∧
        tasks s' = delete (name t) (tasks s) ∧ _lock s' = false.
Proof.
  intros He Ht Hle Hlock Hnm Hto. unfold failing_execution, _execute_task. simpl.
  rewrite He. unfold except_Exception.
  set (s1 := update_task (λ t', set_last_run (Some now0) (set_is_running true t')) l s).
  set (s2 := update_task (λ t', set_error_count (error_count t' + 1) t') l s1).
  assert (Ht2 : heap s2 !! l =
            Some (set_error_count (error_count t + 1)
                    (set_last_run (Some now0) (set_is_running true t)))).
  { unfold s2, s1. by rewrite !lookup_update_task, Ht. }
  assert (Htest : (max_errors_at l s2 <=? error_count_at l s2) = true).
  { unfold max_errors_at, error_count_at. rewrite Ht2. simpl.
    by apply Z.leb_le. }
  assert (Hname : name_at l s2 = name t).
  { unfold name_at. by rewrite Ht2. }
  assert (Hrun : is_running_at l s2 = true).
  { unfold is_running_at. by rewrite Ht2. }
  assert (Hfirst : _wait_for_task now1 l now1 s2 = true).
  { unfold _wait_for_task. rewrite Hrun. simpl. apply negb_true_iff.
    apply not_true_iff_false. rewrite Qgt_int_total_seconds.
    unfold timedelta_seconds. lia. }
  rewrite Htest. unfold handler_remove.
  replace (_lock s2) with false by done.
  unfold remove_task. rewrite Hname.
  replace (tasks s2 !! name t) with (Some l) by done.
  rewrite Hrun, Hfirst. simpl.
  unfold remove_task_resume, _wait_for_task.
  assert (Hgt : Qgt_int (total_seconds (now2 - now1)) 30 = true)
    by by apply Qgt_int_total_seconds.
  rewrite Hgt, andb_false_r.
  change (name_at l (set_lock true s2)) with (name_at l s2). rewrite Hname.
  unfold del_task.
  replace (tasks (set_lock true s2) !! name t) with (Some l) by done.
  simpl. eexists. split; [done|]. done.
Qed.

(** C4, as the code has it.  [add_task] gives every task the default
    [max_errors] of 3 (a keyword argument [max_errors] is bound as an
    argument of the work).  A task whose work always raises is still
    registered, with [error_count] 1 and then 2, after its first and
    second executions, and [run_task_now] still accepts it; its third
    execution removes it from the registry once the wait of [remove_task]
    has timed out, and [run_task_now] then raises the not-found error. *)
Theorem failing_task_removed_after_three_executions
    s nm f iv kw e now0 now1 now2 now3 now4 now5 now6 now7 now8 :
  _lock s = false → tasks s !! nm = None →
  isinstance_Exception e = true →
  timedelta_seconds 30 < now8 - now7 →
  ∃ s0 s1 s2 s3,
    add_task nm f iv kw s = Ok s0 ∧
    max_errors_at (length (heap s)) s0 = 3 ∧
    failing_execution e now0 now1 now2 (length (heap s)) s0 = (s1, Finished None) ∧
    tasks s1 !! nm = Some (length (heap s)) ∧
    error_count_at (length (heap s)) s1 = 1 ∧
    failing_execution e now3 now4 now5 (length (heap s)) s1 = (s2, Finished None) ∧
    tasks s2 !! nm = Some (length (heap s)) ∧
    error_count_at (length (heap s)) s2 = 2 ∧
    raises (run_task_now nm s2) = false ∧
    failing_execution e now6 now7 now8 (length (heap s)) s2 = (s3, Finished None) ∧
    tasks s3 !! nm = None ∧
    run_task_now nm s3 = Raise (ValueError ("Task " ++ nm ++ " not found")).
Proof.
  intros Hlock Hnm He Hto.
  set (l := length (heap s)).
  set (tk := new_ScheduledTask nm f
               match iv with
               | None => default 3600 (default_intervals !! nm)
               | Some i => i
               end (Some kw)).
  set (s0 := set_tasks (<[nm := l]> (tasks s)) (set_heap (heap s ++ [tk]) s)).
  assert (Ht0 : heap s0 !! l = Some tk) by by apply list_lookup_middle.
  destruct (failing_execution_below e now0 now1 now2 l s0 tk He Ht0)
    as (s1 & Hex1 & Htk1 & Hlk1 & Ht1); [simpl; lia|].
  destruct (failing_execution_below e now3 now4 now5 l s1 _ He Ht1)
    as (s2 & Hex2 & Htk2 & Hlk2 & Ht2); [simpl; lia|].
  destruct (failing_execution_reaches e now6 now7 now8 l s2 _ He Ht2)
    as (s3 & Hex3 & Htk3 & Hlk3); [simpl; lia|by rewrite Hlk2, Hlk1| |done|].
  { rewrite Htk2, Htk1. simpl. by rewrite lookup_insert_eq. }
  exists s0, s1, s2, s3.
  assert (Hreg1 : tasks s1 !! nm = Some l).
  { rewrite Htk1. simpl. by rewrite lookup_insert_eq. }
  assert (Hreg2 : tasks s2 !! nm = Some l) by by rewrite Htk2.
  assert (Hreg3 : tasks s3 !! nm = None).
  { rewrite Htk3. simpl. by rewrite lookup_delete_eq. }
  split_and!; try done.
  - by apply add_task_fresh.
  - unfold max_errors_at. by rewrite Ht0.
  - unfold error_count_at. by rewrite Ht1.
  - unfold error_count_at. by rewrite Ht2.
  - unfold run_task_now. rewrite Hreg2. unfold is_running_at. by rewrite Ht2.
  - unfold run_task_now. by rewrite Hreg3.
Qed.

End SchedulerProofs.

(** * The theorems on the example data *)

Lemma example_failed_run : run example_events started = Some example_failed.
Proof. vm_compute. reflexivity. Qed.

Lemma example_failed_reachable : reachable example_failed.
Proof.
  exact (reachable_run example_events started example_failed
           reachable_started example_failed_run).
Qed.

Lemma poll_selects_exactly_due_tasks_witness :
  running (sched example_polling) = true ∧
  0%nat ∈ due_tasks 5 (sched example_polling).
Proof.
  split; [reflexivity|].
  destruct (poll_selects_exactly_due_tasks example_polling 5 "health_check"
              0%nat example_task eq_refl eq_refl eq_refl)
    as (_ & _ & _ & _ & Hunset).
  apply Hunset; reflexivity.
Defined.

Lemma no_self_overlap_witness :
  NoDup (executions example_failed) ∧
  is_running_at 0%nat (sched example_failed) = true ∧
  0%nat ∉ due_tasks 9000000000 (sched example_failed).
Proof.
  destruct (no_self_overlap example_failed example_failed_reachable)
    as (Hnd & Hmarked & _).
  split; [exact Hnd|].
  apply (Hmarked 0%nat (AtWorkDone (Threw (OtherException "boom")))).
  - vm_compute. repeat constructor.
  - discriminate.
Defined.


(** C4, as the claim states it, fails: registered with the keyword
    argument [max_errors=2], the task keeps [max_errors = 3]; after two
    executions whose work raises it is still registered, and
    [run_task_now] does not raise. *)
Lemma max_errors_keyword_not_a_threshold :
  max_errors_at 0%nat example_registered = 3 ∧
  ¬ (tasks example_after_two !! "x" = None ∧
     run_task_now "x" example_after_two
       = Raise (ValueError "Task x not found")).
Proof.
  split; [reflexivity|].
  intros [Hgone _]. vm_compute in Hgone. discriminate Hgone.
Qed.

Lemma failing_task_removed_after_three_executions_witness :
  ∃ s3 : @TaskScheduler string Z,
    failing_execution (OtherException "boom") 6 7 40000000 0%nat
      example_after_two = (s3, Finished None) ∧
    tasks s3 !! "x" = None ∧
    run_task_now "x" s3 = Raise (ValueError "Task x not found").
Proof.
  destruct (failing_task_removed_after_three_executions
              (@TaskScheduler_init string Z) "x" "work" None example_kwargs
              (OtherException "boom") 0 1 2 3 4 5 6 7 40000000
              eq_refl eq_refl eq_refl eq_refl)
    as (s0 & s1 & s2 & s3 & Hadd & _ & H1 & _ & _ & H2 & _ & _ & _ & H3 & Hgone & Hnf).
  exists s3. simpl in H1, H2, H3, Hgone, Hnf.
  assert (Hs2 : s2 = example_after_two).
  { unfold example_after_two, example_after_one, example_registered.
    rewrite Hadd. rewrite H1. simpl. by rewrite H2. }
  rewrite <- Hs2. auto.
Defined.

Lemma add_task_duplicate_rejected_witness :
  ∃ s1 : @TaskScheduler string Z,
    add_task "x" "work" (Some 60) ∅ TaskScheduler_init = Ok s1 ∧
    add_task "x" "other" (Some 5) example_kwargs s1
      = Raise (ValueError "Task x already exists") ∧
    size (tasks s1) = 1%nat.
Proof.
  destruct (add_task_duplicate_rejected (@TaskScheduler_init string Z)
              "x" "work" (Some 60) ∅ "other" (Some 5) example_kwargs)
    as [_ Hfresh].
  destruct (Hfresh eq_refl) as (s1 & Hadd & Hdup & _ & _ & Hsize & _).
  exists s1. auto.
Defined.

Lemma run_task_now_spec_witness :
  run_task_now "missing" example_busy
    = Raise (ValueError "Task missing not found") ∧
  run_task_now "x" example_busy
    = Raise (RuntimeError "Task x is already running") ∧
  ∃ s', run_task_now "x" example_idle = Ok s' ∧
        0%nat ∈ due_tasks 1 s'.
Proof.
  split; [|split].
  - apply (run_task_now_spec example_busy "missing"). reflexivity.
  - destruct (run_task_now_spec example_busy "x") as (_ & Hbusy & _).
    eapply Hbusy; reflexivity.
  - destruct (run_task_now_spec example_idle "x") as (_ & _ & Hok).
    destruct (Hok 0%nat _ eq_refl eq_refl eq_refl)
      as (s' & Hrun & _ & _ & _ & _ & _ & _ & Hdue).
    exists s'. auto.
Defined.

Lemma finally_clears_is_running_witness :
  (_execute_task 9 0%nat (AtWorkDone (Threw (OtherException "boom")))
     example_orphan).2 = Finished (Some (ValueError "Task x not found")) ∧
  ∃ t', heap (_execute_task 9 0%nat (AtWorkDone (Threw (OtherException "boom")))
                example_orphan).1 !! 0%nat = Some t' ∧
        is_running t' = false.
Proof.
  split; [reflexivity|].
  eapply (finally_clears_is_running 9 0%nat
            (AtWorkDone (Threw (OtherException "boom"))) example_orphan).
  - reflexivity.
  - reflexivity.
Defined.


Lemma add_task_resolves_interval_witness :
  ∃ (s' : @TaskScheduler string Z) t,
    add_task "health_check" "check" None ∅ TaskScheduler_init = Ok s' ∧
    heap s' !! 0%nat = Some t ∧ interval t = 300.
Proof.
  destruct (add_task_resolves_interval (@TaskScheduler_init string Z)
              "health_check" "check" None ∅ eq_refl)
    as (s' & l & t & Hadd & Hl & Ht & _ & Htable & _).
  exists s', t. split; [exact Hadd|].
  assert (l = 0%nat) as ->.
  { injection Hadd as <-. vm_compute in Hl. by injection Hl. }
  split; [exact Ht|]. apply Htable; reflexivity.
Defined.

Lemma update_interval_unvalidated_witness :
  raises (update_interval "missing" 0 example_idle) = true ∧
  ∃ s', update_interval "x" (-5) example_idle = Ok s' ∧
        0%nat ∈ due_tasks 1 s'.
Proof.
  destruct (update_interval_unvalidated example_idle "missing" 0) as (Hiff & _ & _).
  split; [by apply Hiff|].
  destruct (update_interval_unvalidated example_idle "x" (-5)) as (_ & Hstore & _).
  destruct (Hstore 0%nat _ eq_refl eq_refl) as (s' & Hupd & Htasks & Hl & _).
  exists s'. split; [exact Hupd|].
  destruct (update_interval_unvalidated s' "x" 0) as (_ & _ & Hdue).
  eapply (Hdue 0%nat _ 1); [by rewrite Htasks|exact Hl|simpl; lia|reflexivity|].
  simpl. intros lr [= <-]. lia.
Defined.

(** * Further properties of the scheduler *)

Section MoreProofs.

Context {Callable Any : Type}.

Implicit Types (s : @TaskScheduler Callable Any).
Implicit Types (t : @ScheduledTask Callable Any).
Implicit Types (c : @config Callable Any).
Implicit Types (l : loc) (nm : string) (now : datetime).

(** ** [remove_task] *)



(** X2. A task that is added and then removed without having run leaves the
    registry and the status report as they were. *)
Theorem add_then_remove (isoformat : Z → string) s nm f iv kw now now' :
  registry_ok s → tasks s !! nm = None →
  ∃ s1 s2, add_task nm f iv kw s = Ok s1 ∧
           remove_task now nm s1 = Done s2 ∧
           tasks s2 = tasks s ∧ running s2 = running s ∧
           get_status isoformat now' s2 = get_status isoformat now' s.
Proof.
  intros Hreg Hnm. eexists _, _. split; [by apply add_task_fresh|].
  unfold remove_task. simpl. rewrite lookup_insert_eq.
  unfold is_running_at. simpl. rewrite list_lookup_middle by done. simpl.
  unfold del_task. simpl. rewrite lookup_insert_eq.
  split; [done|]. simpl. rewrite delete_insert_eq, delete_id by done.
  split_and!; try done.
  unfold get_status. simpl. apply map_eq. intros nm'.
  rewrite !lookup_omap. destruct (tasks s !! nm') as [l'|] eqn:Hl'; [|done].
  simpl. destruct (Hreg _ _ Hl') as (t' & Ht' & _).
  by rewrite (lookup_app_l_Some _ _ _ _ Ht'), Ht'.
Qed.

(** X3. While a call of [remove_task] waits for a running task it holds the
    lock: calls of [add_task], [update_interval] and [remove_task] wait,
    and an execution that has to remove its task waits for the lock,
    whereas [run_task_now] and [get_status] are answered. *)
Theorem remove_task_waits_under_lock c nm l t now :
  _lock (sched c) = false →
  tasks (sched c) !! nm = Some l → heap (sched c) !! l = Some t →
  is_running t = true →
  ∃ c', do_call now (RemoveTask nm) c = Some c' ∧
        sched c' = set_lock true (sched c) ∧
        ready c' = ready c ∧
        waiting c' = waiting c ++ [Remover nm l now] ∧
        (∀ now' nm' f iv kw, do_call now' (AddTask nm' f iv kw) c' = None) ∧
        (∀ now' nm' iv, do_call now' (UpdateInterval nm' iv) c' = None) ∧
        (∀ now' nm', do_call now' (RemoveTask nm') c' = None) ∧
        (∀ now' l', handler_remove now' l' (sched c')
                    = (sched c', Suspended AtLock)) ∧
        (∀ now' nm', is_Some (do_call now' (RunTaskNow nm') c')) ∧
        (∀ now', do_call now' GetStatus c' = Some c').
Proof.
  intros Hlock Hnm Ht Hr. simpl. rewrite Hlock.
  unfold remove_task. rewrite Hnm. unfold is_running_at. rewrite Ht. simpl.
  rewrite Hr. unfold _wait_for_task, is_running_at. rewrite Ht. simpl. rewrite Hr.
  assert (Hzero : Qgt_int (total_seconds (now - now)) 30 = false).
  { apply not_true_iff_false. rewrite Qgt_int_total_seconds.
    unfold timedelta_seconds. lia. }
  rewrite Hzero. simpl. eexists. split; [done|]. simpl.
  split_and!; try done.
Qed.

(** X4. The wait of [remove_task] is bounded.  Resumed after its sleep, the
    call deletes the entry and frees the lock as soon as the task is no
    longer running; it waits on while the task runs and at most 30 seconds
    have passed; and once more than 30 seconds have passed it deletes the
    entry although the task is still running, and leaves the task
    running. *)
Theorem remove_task_bounded_wait s nm l st now :
  tasks s !! nm = Some l →
  (is_running_at l s = false →
     remove_task_resume now nm l st s
       = Done (set_lock false (set_tasks (delete nm (tasks s)) s))) ∧
  (is_running_at l s = true → now - st ≤ timedelta_seconds 30 →
     remove_task_resume now nm l st s = Await l st s) ∧
  (is_running_at l s = true → timedelta_seconds 30 < now - st →
     ∃ s', remove_task_resume now nm l st s = Done s' ∧
           tasks s' = delete nm (tasks s) ∧ _lock s' = false ∧
           is_running_at l s' = true).
Proof.
  intros Hnm. unfold remove_task_resume, _wait_for_task, del_task.
  rewrite Hnm. split_and!.
  - by intros ->.
  - intros -> Hle.
    assert (Hq : Qgt_int (total_seconds (now - st)) 30 = false).
    { apply not_true_iff_false. rewrite Qgt_int_total_seconds. lia. }
    by rewrite Hq.
  - intros Hr Hgt. apply Qgt_int_total_seconds in Hgt.
    rewrite Hr, Hgt. simpl. eexists. split; [done|]. done.
Qed.

(** ** What an execution leaves alone *)

Lemma del_task_frame nm s :
  heap (segment_state (del_task nm s)) = heap s ∧
  running (segment_state (del_task nm s)) = running s ∧
  (tasks (segment_state (del_task nm s)) = tasks s ∨
   tasks (segment_state (del_task nm s)) = delete nm (tasks s)).
Proof. unfold del_task. destruct (tasks s !! nm); simpl; auto. Qed.

Lemma remove_task_frame now nm s :
  heap (segment_state (remove_task now nm s)) = heap s ∧
  running (segment_state (remove_task now nm s)) = running s ∧
  (tasks (segment_state (remove_task now nm s)) = tasks s ∨
   tasks (segment_state (remove_task now nm s)) = delete nm (tasks s)).
Proof.
  unfold remove_task. destruct (tasks s !! nm); [|simpl; auto].
  repeat case_match; simpl; auto; apply del_task_frame.
Qed.

Lemma remove_task_resume_frame now nm l st s :
  heap (segment_state (remove_task_resume now nm l st s)) = heap s ∧
  running (segment_state (remove_task_resume now nm l st s)) = running s ∧
  (tasks (segment_state (remove_task_resume now nm l st s)) = tasks s ∨
   tasks (segment_state (remove_task_resume now nm l st s))
     = delete nm (tasks s)).
Proof.
  unfold remove_task_resume. case_match; [simpl; auto|]. apply del_task_frame.
Qed.

Lemma handler_remove_frame now l s :
  heap (handler_remove now l s).1 = heap s ∧
  running (handler_remove now l s).1 = running s ∧
  (tasks (handler_remove now l s).1 = tasks s ∨
   tasks (handler_remove now l s).1 = delete (name_at l s) (tasks s)).
Proof.
  unfold handler_remove. destruct (_lock s); [simpl; auto|].
  pose proof (remove_task_frame now (name_at l s) s) as Hf.
  by destruct (remove_task now (name_at l s) s).
Qed.

Lemma try_except_frame now l pc s t :
  heap s !! l = Some t →
  running (try_except now l pc s).1 = running s ∧
  length (heap (try_except now l pc s).1) = length (heap s) ∧
  (∀ l', l' ≠ l → heap (try_except now l pc s).1 !! l' = heap s !! l') ∧
  (∃ t', heap (try_except now l pc s).1 !! l = Some t' ∧
         same_configuration t t') ∧
  (tasks (try_except now l pc s).1 = tasks s ∨
   tasks (try_except now l pc s).1 = delete (name t) (tasks s)).
Proof.
  intros Ht.
  assert (Hname : name_at l s = name t) by (unfold name_at; by rewrite Ht).
  assert (Hupd : ∀ (f : ScheduledTask → ScheduledTask) s1,
    same_configuration t (f t) →
    running s1 = running s → heap s1 = heap (update_task f l s) →
    (tasks s1 = tasks s ∨ tasks s1 = delete (name t) (tasks s)) →
    running s1 = running s ∧
    length (heap s1) = length (heap s) ∧
    (∀ l', l' ≠ l → heap s1 !! l' = heap s !! l') ∧
    (∃ t', heap s1 !! l = Some t' ∧ same_configuration t t') ∧
    (tasks s1 = tasks s ∨ tasks s1 = delete (name t) (tasks s))).
  { intros f s1 Hf Hrun Hh Htk. rewrite Hh. split_and!; try done.
    - apply length_alter.
    - intros l' ?. by apply list_lookup_alter_ne.
    - exists (f t). by rewrite lookup_update_task, Ht. }
  assert (Hsame : ∀ s1,
    running s1 = running s → heap s1 = heap s →
    (tasks s1 = tasks s ∨ tasks s1 = delete (name t) (tasks s)) →
    running s1 = running s ∧
    length (heap s1) = length (heap s) ∧
    (∀ l', l' ≠ l → heap s1 !! l' = heap s !! l') ∧
    (∃ t', heap s1 !! l = Some t' ∧ same_configuration t t') ∧
    (tasks s1 = tasks s ∨ tasks s1 = delete (name t) (tasks s))).
  { intros s1 Hrun Hh Htk. rewrite Hh. split_and!; try done.
    exists t. by split_and!. }
  destruct pc as [| |[|e]| |target st].
  - apply (Hupd (λ t', set_last_run (Some now) (set_is_running true t'))
             (update_task
                (λ t', set_last_run (Some now) (set_is_running true t')) l s));
      [by split_and!|done|done|by left].
  - apply (Hsame s); [done|done|by left].
  - apply (Hupd (set_error_count 0) (update_task (set_error_count 0) l s));
      [by split_and!|done|done|by left].
  - unfold try_except. destruct (isinstance_Exception e); [|apply (Hsame s); [done|done|by left]].
    unfold except_Exception.
    set (s1 := update_task (λ t', set_error_count (error_count t' + 1) t') l s).
    assert (Hname1 : name_at l s1 = name t).
    { unfold name_at, s1. by rewrite lookup_update_task, Ht. }
    destruct (max_errors_at l s1 <=? error_count_at l s1).
    + destruct (handler_remove_frame now l s1) as (Hh & Hrun & Htk).
      rewrite Hname1 in Htk.
      apply (Hupd (λ t', set_error_count (error_count t' + 1) t')
               (handler_remove now l s1).1); [by split_and!|done|done|done].
    + apply (Hupd (λ t', set_error_count (error_count t' + 1) t') s1);
        [by split_and!|done|done|by left].
  - destruct (handler_remove_frame now l s) as (Hh & Hrun & Htk).
    rewrite Hname in Htk. apply (Hsame (handler_remove now l s).1); done.
  - unfold try_except. rewrite Hname.
    destruct (remove_task_resume_frame now (name t) target st s)
      as (Hh & Hrun & Htk).
    destruct (remove_task_resume now (name t) target st s) as [s2|e2 s2|? ? s2];
      simpl in Hh, Hrun, Htk; apply (Hsame s2); done.
Qed.

(** X5. Failure isolation.  Whatever a segment of the execution of a task
    does -- its work may have raised -- it leaves [self.running], every
    other task object and the registry entries of all other names as they
    are; of its own task it keeps the name, the callable, the arguments,
    the interval and [max_errors]; and it changes the registry at most by
    deleting the entry of its own task's name. *)
Theorem execution_isolated now l pc s t :
  heap s !! l = Some t →
  running (_execute_task now l pc s).1 = running s ∧
  length (heap (_execute_task now l pc s).1) = length (heap s) ∧
  (∀ l', l' ≠ l → heap (_execute_task now l pc s).1 !! l' = heap s !! l') ∧
  (∃ t', heap (_execute_task now l pc s).1 !! l = Some t' ∧
         same_configuration t t') ∧
  (∀ nm, nm ≠ name t →
         tasks (_execute_task now l pc s).1 !! nm = tasks s !! nm) ∧
  (tasks (_execute_task now l pc s).1 = tasks s ∨
   tasks (_execute_task now l pc s).1 = delete (name t) (tasks s)).
Proof.
  intros Ht. unfold _execute_task.
  destruct (try_except_frame now l pc s t Ht)
    as (Hrun & Hlen & Hne & (t1 & Ht1 & Hcfg) & Htk).
  destruct (try_except now l pc s) as [s1 [pc1|e1]]; simpl in *.
  - split_and!; try done; [by exists t1|].
    intros nm Hnm. destruct Htk as [->| ->]; [done|by rewrite lookup_delete_ne].
  - split_and!; try done.
    + by rewrite length_alter.
    + intros l' ?. by rewrite list_lookup_alter_ne; auto.
    + exists (set_is_running false t1). by rewrite list_lookup_alter_eq, Ht1.
    + intros nm Hnm. destruct Htk as [->| ->]; [done|by rewrite lookup_delete_ne].
Qed.

(** ** A running task has a start time *)

Lemma started_update_task (f : ScheduledTask → ScheduledTask) l s :
  running_tasks_have_started s →
  (∀ t, (is_running t = true → is_Some (last_run t)) →
        is_running (f t) = true → is_Some (last_run (f t))) →
  running_tasks_have_started (update_task f l s).
Proof.
  intros Hs Hf l' t'. destruct (decide (l' = l)) as [->|Hne].
  - rewrite lookup_update_task.
    destruct (heap s !! l) as [t|] eqn:Ht; [|done].
    intros [= <-]. apply Hf. by apply (Hs l).
  - rewrite lookup_update_task_ne by done. apply Hs.
Qed.

Lemma started_same_heap s s' :
  running_tasks_have_started s → heap s' = heap s →
  running_tasks_have_started s'.
Proof. intros Hs Hh l t. rewrite Hh. apply Hs. Qed.

Lemma started_execute_task now l pc s :
  running_tasks_have_started s →
  running_tasks_have_started (_execute_task now l pc s).1.
Proof.
  intros Hs.
  assert (Hte : running_tasks_have_started (try_except now l pc s).1).
  { destruct pc as [| |[|e]| |target st]; simpl.
    - apply started_update_task; [done|]. intros t _ _. by eexists.
    - done.
    - by apply started_update_task.
    - destruct (isinstance_Exception e); [|done]. unfold except_Exception.
      case_match.
      + eapply started_same_heap; [|apply handler_remove_heap].
        by apply started_update_task.
      + by apply started_update_task.
    - eapply started_same_heap; [done|apply handler_remove_heap].
    - pose proof (heap_remove_task_resume now (name_at l s) target st s) as Hh.
      destruct (remove_task_resume now (name_at l s) target st s);
        simpl in *; by eapply started_same_heap. }
  unfold _execute_task.
  destruct (try_except now l pc s) as [s1 [pc1|e1]]; simpl in *; [done|].
  apply started_update_task; [done|]. intros t _ Hr. done.
Qed.

Lemma started_step c ev c' :
  running_tasks_have_started (sched c) → step ev c = Some c' →
  running_tasks_have_started (sched c').
Proof.
  intros Hs. destruct ev as [now|i o|now cl]; simpl.
  - destruct (ready c) as [|h rest]; [done|]. intros [= <-].
    destruct h as [|l pc|nm target st]; simpl.
    + unfold _run_scheduler. simpl. by destruct (running (sched c)).
    + pose proof (started_execute_task now l pc (sched c) Hs) as Hs'.
      destruct (_execute_task now l pc (sched c)) as [s' [pc'|e]]; done.
    + pose proof (heap_remove_task_resume now nm target st (sched c)) as Hh.
      destruct (remove_task_resume now nm target st (sched c));
        simpl in *; by eapply started_same_heap.
  - destruct (waiting c !! i); [|done]. by intros [= <-].
  - destruct cl as [nm f iv kw|nm|nm iv|nm| |]; simpl.
    + destruct (_lock (sched c)); [done|]. intros [= <-].
      unfold add_task. destruct (tasks (sched c) !! nm); simpl; [done|].
      intros l t Hl. apply lookup_app_Some in Hl as [Hl|[_ Hl]].
      * by apply (Hs l).
      * destruct (l - length (heap (sched c)))%nat; simpl in Hl; [|done].
        by injection Hl as <-.
    + destruct (_lock (sched c)); [done|]. intros [= <-].
      pose proof (heap_remove_task now nm (sched c)) as Hh.
      destruct (remove_task now nm (sched c));
        simpl in *; by eapply started_same_heap.
    + destruct (_lock (sched c)); [done|]. intros [= <-].
      unfold update_interval. destruct (tasks (sched c) !! nm); simpl; [|done].
      by apply started_update_task.
    + intros [= <-]. unfold run_task_now.
      destruct (tasks (sched c) !! nm) as [l|]; simpl; [|done].
      destruct (is_running_at l (sched c)) eqn:Hr; simpl; [done|].
      intros l' t'. destruct (decide (l' = l)) as [->|Hne].
      * rewrite lookup_update_task. unfold is_running_at in Hr.
        destruct (heap (sched c) !! l) as [t|]; [|done].
        intros [= <-]. simpl in *. congruence.
      * rewrite lookup_update_task_ne by done. apply Hs.
    + by intros [= <-].
    + by intros [= <-].
Qed.

(** X6. In every configuration the system can reach, a task object that is
    running has its [last_run] set; so a registered task whose [last_run]
    is unset -- it never ran, or [run_task_now] has just triggered it -- is
    not running, and the poll loop selects it at whatever instant it
    polls. *)
Theorem unset_last_run_is_due c :
  reachable c →
  running_tasks_have_started (sched c) ∧
  (∀ nm l t now, tasks (sched c) !! nm = Some l →
     heap (sched c) !! l = Some t → last_run t = None →
     is_running t = false ∧ l ∈ due_tasks now (sched c)).
Proof.
  intros Hreach.
  assert (Hs : running_tasks_have_started (sched c)).
  { induction Hreach as [|ev c c' _ IH Hstep].
    - intros l t Hl. by simpl in Hl.
    - by eapply started_step. }
  split; [done|]. intros nm l t now Hnm Ht Hlr.
  assert (Hr : is_running t = false).
  { destruct (is_running t) eqn:Hr; [|done].
    destruct (Hs l t Ht Hr) as [lr Hsome]. congruence. }
  split; [done|]. by eapply due_tasks_unset.
Qed.

(** ** The lock *)

Local Abbreviation hcount hs :=
  (length (filter (λ h : coro, is_holder h = true) hs)).

Lemma hcount_app (a b : list coro) :
  hcount (a ++ b) = (hcount a + hcount b)%nat.
Proof. by rewrite filter_app, length_app. Qed.

Lemma hcount_cons (h : coro) (a : list coro) :
  hcount (h :: a) = ((if is_holder h then 1 else 0) + hcount a)%nat.
Proof.
  rewrite filter_cons. destruct (is_holder h) eqn:Hh.
  - by rewrite decide_True.
  - by rewrite decide_False.
Qed.

Lemma hcount_starts (ls : list loc) :
  hcount ((λ l, Exec l AtStart) <$> ls) = 0%nat.
Proof.
  induction ls as [|l ls IH]; [done|].
  rewrite fmap_cons, hcount_cons. simpl. done.
Qed.

Lemma hcount_delete (hs : list coro) i h :
  hs !! i = Some h →
  hcount hs = ((if is_holder h then 1 else 0) + hcount (delete i hs))%nat.
Proof.
  intros Hi. rewrite <- hcount_cons.
  apply Permutation_length, filter_Permutation. by apply delete_Permutation.
Qed.

Lemma no_holder_entry (hs : list coro) s h :
  hcount hs = 0%nat → h ∈ hs → holds_entry s h.
Proof.
  intros Hz Hin.
  assert (Hh : is_holder h = false).
  { destruct (is_holder h) eqn:Hh; [|done].
    assert (Hf : h ∈ filter (λ h : coro, is_holder h = true) hs)
      by by apply list_elem_of_filter.
    destruct (filter (λ h : coro, is_holder h = true) hs); [|done].
    by apply elem_of_nil in Hf. }
  destruct h as [|l [| | | |]|]; done.
Qed.

Lemma holds_entry_frame s s' h :
  holds_entry s h → tasks s' = tasks s →
  (∀ l pc, h = Exec l pc → name_at l s' = name_at l s) →
  holds_entry s' h.
Proof.
  intros He Ht Hn. destruct h as [|l [| | | |tg st]|nm tg st]; simpl in *; try done.
  - by rewrite Ht, (Hn l (AtWait tg st)).
  - by rewrite Ht.
Qed.

Lemma handler_remove_lock now l s s' r :
  handler_remove now l s = (s', r) →
  (_lock s' = _lock s ∧ tasks s' = tasks s ∧
   (∀ tg st, r ≠ Suspended (AtWait tg st))) ∨
  (_lock s = false ∧ _lock s' = false ∧ ∃ e, r = Finished e) ∨
  (_lock s = false ∧ _lock s' = true ∧ tasks s' = tasks s ∧
   ∃ tg, r = Suspended (AtWait tg now) ∧ tasks s !! name_at l s = Some tg).
Proof.
  unfold handler_remove. destruct (_lock s) eqn:Hlock.
  { intros [= <- <-]. left. by rewrite Hlock. }
  unfold remove_task, del_task.
  destruct (tasks s !! name_at l s) as [l0|] eqn:Hnm.
  - destruct (is_running_at l0 s); [destruct (_wait_for_task now l0 now s)|];
      intros [= <- <-]; [right; right; split_and!; eauto|right; left; eauto..].
  - intros [= <- <-]. right; left; eauto.
Qed.

Lemma execute_lock now l pc s t s' r :
  heap s !! l = Some t → (∀ tg st, pc ≠ AtWait tg st) →
  _execute_task now l pc s = (s', r) →
  (_lock s' = _lock s ∧ tasks s' = tasks s ∧
   (∀ tg st, r ≠ Suspended (AtWait tg st))) ∨
  (_lock s = false ∧ _lock s' = false ∧ ∃ e, r = Finished e) ∨
  (_lock s = false ∧ _lock s' = true ∧ tasks s' = tasks s ∧
   ∃ tg, r = Suspended (AtWait tg now) ∧ tasks s !! name t = Some tg).
Proof.
  intros Ht Hpc.
  assert (Hname : name_at l s = name t) by (unfold name_at; by rewrite Ht).
  assert (Hte : ∀ s1 r1, try_except now l pc s = (s1, r1) →
    (_lock s1 = _lock s ∧ tasks s1 = tasks s ∧
     (∀ tg st, r1 ≠ Suspended (AtWait tg st))) ∨
    (_lock s = false ∧ _lock s1 = false ∧ ∃ e, r1 = Finished e) ∨
    (_lock s = false ∧ _lock s1 = true ∧ tasks s1 = tasks s ∧
     ∃ tg, r1 = Suspended (AtWait tg now) ∧ tasks s !! name t = Some tg)).
  { intros s1 r1. destruct pc as [| |[|e]| |target st]; simpl.
    - intros [= <- <-]. by left.
    - intros [= <- <-]. by left.
    - intros [= <- <-]. by left.
    - destruct (isinstance_Exception e); [|intros [= <- <-]; by left].
      unfold except_Exception.
      set (s0 := update_task (λ t', set_error_count (error_count t' + 1) t') l s).
      assert (Hname0 : name_at l s0 = name t).
      { unfold name_at, s0. by rewrite lookup_update_task, Ht. }
      destruct (max_errors_at l s0 <=? error_count_at l s0);
        [|intros [= <- <-]; by left].
      intros Hrm. apply handler_remove_lock in Hrm. by rewrite Hname0 in Hrm.
    - intros Hrm. apply handler_remove_lock in Hrm. by rewrite Hname in Hrm.
    - by destruct (Hpc target st). }
  unfold _execute_task.
  destruct (try_except now l pc s) as [s1 r1] eqn:Heq.
  specialize (Hte s1 r1 eq_refl).
  destruct r1 as [pc1|e1]; simpl; intros [= <- <-]; [done|].
  destruct Hte as [(? & ? & ?)|[(? & ? & ?)|(? & ? & ? & tg & ? & ?)]];
    [by left|right; left; eauto|done].
Qed.

Lemma resume_lock now nm tg st s :
  tasks s !! nm = Some tg →
  (remove_task_resume now nm tg st s = Await tg st s) ∨
  (∃ s', remove_task_resume now nm tg st s = Done s' ∧ _lock s' = false).
Proof.
  intros Hnm. unfold remove_task_resume, del_task.
  destruct (_wait_for_task now tg st s); [by left|].
  rewrite Hnm. right. eauto.
Qed.

Lemma lock_run_poll c rest now :
  lock_invariant c → ready c = Poll :: rest →
  lock_invariant (_run_scheduler now
                    {| sched := sched c; ready := rest; waiting := waiting c |}).
Proof.
  intros [Hc He] Hq. unfold holders, coros in Hc, He. rewrite Hq in Hc, He.
  rewrite hcount_app, hcount_cons in Hc. cbn [is_holder] in Hc.
  unfold _run_scheduler. cbn [sched ready waiting]. destruct (running (sched c)).
  - split.
    + unfold holders, coros. cbn [sched ready waiting].
      rewrite !hcount_app, hcount_starts, hcount_cons. cbn [is_holder].
      cbn [filter list_filter length]. lia.
    + intros h Hin. unfold coros in Hin. cbn [sched ready waiting] in Hin.
      apply elem_of_app in Hin as [Hin|Hin];
        apply elem_of_app in Hin as [Hin|Hin].
      * apply He. apply elem_of_app. left. by apply elem_of_cons; right.
      * by apply list_elem_of_fmap in Hin as (l & -> & _).
      * apply He. apply elem_of_app. by right.
      * by apply list_elem_of_singleton in Hin as ->.
  - split.
    + unfold holders, coros. cbn [sched ready waiting]. rewrite hcount_app. lia.
    + intros h Hin. unfold coros in Hin. cbn [sched ready waiting] in Hin.
      apply He. apply elem_of_app in Hin as [Hin|Hin]; apply elem_of_app.
      * left. by apply elem_of_cons; right.
      * by right.
Qed.

Lemma lock_run_remover c nm tg st rest now :
  lock_invariant c → ready c = Remover nm tg st :: rest →
  lock_invariant (run_coro now (Remover nm tg st)
                    {| sched := sched c; ready := rest; waiting := waiting c |}).
Proof.
  intros [Hc He] Hq. unfold holders, coros in Hc, He. rewrite Hq in Hc, He.
  rewrite hcount_app, hcount_cons in Hc. cbn [is_holder] in Hc.
  assert (Hnm : tasks (sched c) !! nm = Some tg).
  { apply (He (Remover nm tg st)). apply elem_of_app. left.
    by apply elem_of_cons; left. }
  assert (Hlock : _lock (sched c) = true ∧
                  (hcount rest + hcount (waiting c) = 0)%nat).
  { destruct (_lock (sched c)); split; (done || lia). }
  destruct Hlock as [Hlock Hz]. cbn [run_coro sched ready waiting].
  destruct (resume_lock now nm tg st (sched c) Hnm) as [->|(s' & -> & Hl')].
  - split.
    + unfold holders, coros. cbn [sched ready waiting].
      rewrite !hcount_app, hcount_cons. cbn [is_holder].
      cbn [filter list_filter length]. rewrite Hlock. lia.
    + intros h Hin. unfold coros in Hin. cbn [sched ready waiting] in Hin.
      apply elem_of_app in Hin as [Hin|Hin];
        [|apply elem_of_app in Hin as [Hin|Hin]].
      * apply He. apply elem_of_app. left. by apply elem_of_cons; right.
      * apply He. apply elem_of_app. by right.
      * by apply list_elem_of_singleton in Hin as ->.
  - split.
    + unfold holders, coros. cbn [sched ready waiting].
      rewrite hcount_app, Hl'. lia.
    + intros h Hin. apply (no_holder_entry (rest ++ waiting c)); [|done].
      rewrite hcount_app. lia.
Qed.

Lemma lock_wake c i o h :
  lock_invariant c → waiting c !! i = Some h →
  lock_invariant {| sched := sched c; ready := ready c ++ [resume h o];
                    waiting := delete i (waiting c) |}.
Proof.
  intros [Hc He] Hi. unfold holders, coros in Hc, He.
  assert (Hh : is_holder (resume h o) = is_holder h) by by destruct h as [|l []|].
  assert (Hin : h ∈ waiting c) by (apply list_elem_of_lookup; eauto).
  rewrite hcount_app, (hcount_delete _ _ _ Hi) in Hc.
  split.
  - unfold holders, coros. cbn [sched ready waiting].
    rewrite !hcount_app, hcount_cons, Hh.
    cbn [filter list_filter length]. lia.
  - intros h' Hin'. unfold coros in Hin'. cbn [sched ready waiting] in Hin'.
    apply elem_of_app in Hin' as [Hin'|Hin'];
      [apply elem_of_app in Hin' as [Hin'|Hin']|].
    + apply He. apply elem_of_app. by left.
    + apply list_elem_of_singleton in Hin' as ->.
      assert (Hold : holds_entry (sched c) h).
      { apply He. apply elem_of_app. by right. }
      by destruct h as [|l []|].
    + apply He. apply elem_of_app. right. by eapply list_elem_of_delete_inv.
Qed.

Lemma name_at_execute_task now l pc s t l0 :
  heap s !! l = Some t →
  name_at l0 (_execute_task now l pc s).1 = name_at l0 s.
Proof.
  intros Ht. unfold _execute_task.
  destruct (try_except_frame now l pc s t Ht)
    as (_ & _ & Hne & (t1 & Ht1 & Hcfg & _) & _).
  unfold name_at.
  destruct (try_except now l pc s) as [s1 [pc1|e1]]; simpl in *.
  - destruct (decide (l0 = l)) as [->|Hl0].
    + by rewrite Ht1, Ht.
    + by rewrite Hne.
  - destruct (decide (l0 = l)) as [->|Hl0].
    + by rewrite list_lookup_alter_eq, Ht1, Ht.
    + by rewrite list_lookup_alter_ne, Hne by done.
Qed.

Lemma lock_run_exec c l pc rest now :
  invariant c → lock_invariant c → ready c = Exec l pc :: rest →
  lock_invariant (run_coro now (Exec l pc)
                    {| sched := sched c; ready := rest; waiting := waiting c |}).
Proof.
  intros Hinv [Hc He] Hq.
  destruct (inv_marked c Hinv l pc) as (t & Ht & _).
  { unfold coros. rewrite Hq. by apply elem_of_cons; left. }
  unfold holders, coros in Hc, He. rewrite Hq in Hc, He.
  rewrite hcount_app, hcount_cons in Hc.
  assert (Hhead : holds_entry (sched c) (Exec l pc)).
  { apply He. apply elem_of_app. left. by apply elem_of_cons; left. }
  assert (Hold : ∀ h, h ∈ rest ++ waiting c → holds_entry (sched c) h).
  { intros h Hin. apply He. apply elem_of_app in Hin as [Hin|Hin]; apply elem_of_app.
    - left. by apply elem_of_cons; right.
    - by right. }
  pose proof (λ l0, name_at_execute_task now l pc (sched c) t l0 Ht) as Hnames.
  cbn [run_coro sched ready waiting].
  destruct (_execute_task now l pc (sched c)) as [s' r] eqn:Hex.
  simpl in Hnames.
  assert (Hkeep : tasks s' = tasks (sched c) →
                  ∀ h, h ∈ rest ++ waiting c → holds_entry s' h).
  { intros Htk h Hin. apply (holds_entry_frame (sched c)); [by apply Hold|done|].
    intros l0 pc0 _. by apply Hnames. }
  assert (Hnone : (hcount rest + hcount (waiting c) = 0)%nat →
                  ∀ h, h ∈ rest ++ waiting c → holds_entry s' h).
  { intros Hz h Hin. apply (no_holder_entry (rest ++ waiting c)); [|done].
    rewrite hcount_app. lia. }
  assert (Hbuild : ∀ (hs : list coro) n,
    (hcount rest + hcount (waiting c) + hcount hs = n)%nat →
    n = (if _lock s' then 1 else 0)%nat →
    (∀ h, h ∈ rest ++ waiting c → holds_entry s' h) →
    (∀ h, h ∈ hs → holds_entry s' h) →
    lock_invariant {| sched := s'; ready := rest; waiting := waiting c ++ hs |}).
  { intros hs n Hn Hl Hrest Hhs. split.
    - unfold holders, coros. cbn [sched ready waiting].
      rewrite !hcount_app. lia.
    - intros h Hin. unfold coros in Hin. cbn [sched ready waiting] in Hin.
      rewrite app_assoc in Hin. apply elem_of_app in Hin as [Hin|Hin]; auto. }
  assert (Hfin : ∀ e, r = Finished e →
    (hcount rest + hcount (waiting c) = if _lock s' then 1 else 0)%nat →
    (∀ h, h ∈ rest ++ waiting c → holds_entry s' h) →
    lock_invariant
      match r with
      | Suspended pc' =>
          {| sched := s'; ready := rest; waiting := waiting c ++ [Exec l pc'] |}
      | Finished _ => {| sched := s'; ready := rest; waiting := waiting c |}
      end).
  { intros e -> Hn Hrest. split.
    - unfold holders, coros. cbn [sched ready waiting]. rewrite hcount_app. lia.
    - done. }
  assert (Hother : (∀ tg st, pc ≠ AtWait tg st) →
    lock_invariant
      match r with
      | Suspended pc' =>
          {| sched := s'; ready := rest; waiting := waiting c ++ [Exec l pc'] |}
      | Finished _ => {| sched := s'; ready := rest; waiting := waiting c |}
      end).
  { (* the execution does not hold the lock *)
    intros Hnot.
    assert (Hh0 : is_holder (Exec l pc) = false).
    { destruct pc; try done. by destruct (Hnot target start_time). }
    rewrite Hh0 in Hc.
    destruct (execute_lock now l pc (sched c) t s' r Ht Hnot Hex)
      as [(Hl & Htk & Hr)|[(Hl & Hl' & e & ->)|(Hl & Hl' & Htk & tg & -> & Hnm)]].
    - destruct r as [pc'|e].
      + apply (Hbuild [Exec l pc'] (hcount rest + hcount (waiting c))%nat).
        * rewrite hcount_cons.
          assert (is_holder (Exec l pc') = false) as ->.
          { destruct pc'; try done. by destruct (Hr target start_time). }
          cbn [filter list_filter length]. lia.
        * rewrite Hl. lia.
        * by apply Hkeep.
        * intros h Hin. apply list_elem_of_singleton in Hin as ->.
          destruct pc'; try done. by destruct (Hr target start_time).
      + apply (Hfin e); [done| |by apply Hkeep]. rewrite Hl. lia.
    - apply (Hfin e); [done| |apply Hnone].
      + rewrite Hl'. rewrite Hl in Hc. lia.
      + rewrite Hl in Hc. lia.
    - rewrite Hl in Hc.
      apply (Hbuild [Exec l (AtWait tg now)] 1%nat).
      + rewrite hcount_cons. cbn [is_holder filter list_filter length]. lia.
      + by rewrite Hl'.
      + apply Hnone. lia.
      + intros h Hin. apply list_elem_of_singleton in Hin as ->.
        simpl. rewrite Htk, Hnames. unfold name_at. by rewrite Ht. }
  destruct pc as [| |o| |tg st]; try (by apply Hother).
  (* the execution holds the lock *)
  clear Hother. cbn [is_holder] in Hc. simpl in Hhead.
  assert (Hlock : _lock (sched c) = true ∧
                  (hcount rest + hcount (waiting c) = 0)%nat).
  { destruct (_lock (sched c)); split; (done || lia). }
  destruct Hlock as [Hlock Hz].
  unfold _execute_task in Hex. simpl in Hex.
  destruct (resume_lock now (name_at l (sched c)) tg st (sched c) Hhead)
    as [Hrs|(s1 & Hrs & Hl1)]; rewrite Hrs in Hex; simpl in Hex;
    injection Hex as <- <-.
  - apply (Hbuild [Exec l (AtWait tg st)] 1%nat).
    + rewrite hcount_cons. cbn [is_holder filter list_filter length]. lia.
    + by rewrite Hlock.
    + by apply Hkeep.
    + intros h Hin. by apply list_elem_of_singleton in Hin as ->.
  - apply (Hfin None); [done| |by apply Hnone].
    simpl. rewrite Hl1. lia.
Qed.

Lemma lock_set_sched c s' :
  lock_invariant c → _lock s' = _lock (sched c) →
  tasks s' = tasks (sched c) →
  (∀ l, name_at l s' = name_at l (sched c)) →
  lock_invariant {| sched := s'; ready := ready c; waiting := waiting c |}.
Proof.
  intros [Hc He] Hl Ht Hn. split.
  - unfold holders, coros in *. cbn [sched ready waiting]. by rewrite Hl.
  - intros h Hin. apply (holds_entry_frame (sched c)); [by apply He|done|].
    intros l pc _. apply Hn.
Qed.

Lemma lock_free_sched c s' :
  lock_invariant c → _lock (sched c) = false → _lock s' = false →
  lock_invariant {| sched := s'; ready := ready c; waiting := waiting c |}.
Proof.
  intros [Hc He] Hl Hl'. rewrite Hl in Hc. split.
  - unfold holders, coros in *. cbn [sched ready waiting]. by rewrite Hl'.
  - intros h Hin. by apply (no_holder_entry (coros c)).
Qed.

Lemma name_at_update_task (f : ScheduledTask → ScheduledTask) l s l0 :
  (∀ t, name (f t) = name t) →
  name_at l0 (update_task f l s) = name_at l0 s.
Proof.
  intros Hf. unfold name_at. destruct (decide (l0 = l)) as [->|Hne].
  - rewrite lookup_update_task. destruct (heap s !! l); simpl; [apply Hf|done].
  - by rewrite lookup_update_task_ne.
Qed.

Lemma remove_task_lock now nm s :
  _lock s = false →
  match remove_task now nm s with
  | Done s' | Raised _ s' => _lock s' = false
  | Await tg st s' => _lock s' = true ∧ tasks s' !! nm = Some tg ∧ st = now
  end.
Proof.
  intros Hl. unfold remove_task, del_task.
  destruct (tasks s !! nm) as [l|] eqn:Hnm; [|done].
  destruct (is_running_at l s); [destruct (_wait_for_task now l now s)|]; done.
Qed.

Lemma lock_call c now cl c' :
  lock_invariant c → do_call now cl c = Some c' → lock_invariant c'.
Proof.
  intros Hlk. destruct cl as [nm f iv kw|nm|nm iv|nm| |]; simpl.
  - destruct (_lock (sched c)) eqn:Hl; [done|]. intros [= <-].
    unfold add_task. destruct (tasks (sched c) !! nm); simpl; [by destruct c|].
    by apply lock_free_sched.
  - destruct (_lock (sched c)) eqn:Hl; [done|]. intros [= <-].
    pose proof (remove_task_lock now nm (sched c) Hl) as Hrm.
    destruct (remove_task now nm (sched c)) as [s1|e s1|tg st s1].
    + by apply lock_free_sched.
    + by apply lock_free_sched.
    + destruct Hrm as (Hl1 & Hnm & ->). destruct Hlk as [Hc He].
      rewrite Hl in Hc. unfold holders, coros in Hc. rewrite hcount_app in Hc.
      split.
      * unfold holders, coros. cbn [sched ready waiting].
        rewrite !hcount_app, hcount_cons. cbn [is_holder filter list_filter length].
        rewrite Hl1. lia.
      * intros h Hin. unfold coros in Hin. cbn [sched ready waiting] in Hin.
        rewrite app_assoc in Hin. apply elem_of_app in Hin as [Hin|Hin].
        -- apply (no_holder_entry (ready c ++ waiting c)); [|done].
           rewrite hcount_app. lia.
        -- by apply list_elem_of_singleton in Hin as ->.
  - destruct (_lock (sched c)) eqn:Hl; [done|]. intros [= <-].
    unfold update_interval. destruct (tasks (sched c) !! nm); simpl; [|by destruct c].
    by apply lock_free_sched.
  - intros [= <-]. unfold run_task_now.
    destruct (tasks (sched c) !! nm); simpl; [|by destruct c].
    destruct (is_running_at _ _); simpl; [by destruct c|].
    apply lock_set_sched; try done.
    intros l. by apply name_at_update_task.
  - intros [= <-]. by destruct c.
  - intros [= <-]. by apply lock_set_sched.
Qed.

Lemma lock_step c ev c' :
  invariant c → lock_invariant c → step ev c = Some c' → lock_invariant c'.
Proof.
  intros Hinv Hlk. destruct ev as [now|i o|now cl]; simpl.
  - destruct (ready c) as [|h rest] eqn:Hq; [done|]. intros [= <-].
    destruct h as [|l pc|nm target st].
    + by apply lock_run_poll.
    + by apply lock_run_exec.
    + by apply lock_run_remover.
  - destruct (waiting c !! i) as [h|] eqn:Hi; [|done]. intros [= <-].
    by apply lock_wake.
  - by apply lock_call.
Qed.

Lemma reachable_lock_invariant c : reachable c → lock_invariant c.
Proof.
  induction 1 as [|ev c c' Hreach IH Hstep].
  - split; [done|]. intros h Hin. unfold coros in Hin. simpl in Hin.
    by apply list_elem_of_singleton in Hin as ->.
  - eapply lock_step; [by apply reachable_invariant|done|done].
Qed.

(** X7. Mutual exclusion.  In every configuration the system can reach, the
    lock is held exactly when one call of [remove_task] is suspended
    inside [async with self._lock], and never by two; and the registry
    still holds, under the name that call was given, the task object it
    waits for. *)
Theorem lock_mutual_exclusion c :
  reachable c →
  (length (holders c) ≤ 1)%nat ∧
  (_lock (sched c) = true ↔ length (holders c) = 1%nat) ∧
  (∀ nm target st, Remover nm target st ∈ coros c →
     tasks (sched c) !! nm = Some target) ∧
  (∀ l target st, Exec l (AtWait target st) ∈ coros c →
     tasks (sched c) !! name_at l (sched c) = Some target).
Proof.
  intros Hreach. destruct (reachable_lock_invariant c Hreach) as [Hc He].
  split_and!.
  - rewrite Hc. destruct (_lock (sched c)); lia.
  - rewrite Hc. destruct (_lock (sched c)); split; (done || lia).
  - intros nm target st Hin. by apply (He _ Hin).
  - intros l target st Hin. by apply (He _ Hin).
Qed.

Lemma try_finally_result l (x : @TaskScheduler Callable Any * exec_result) :
  (try_finally l x).2 = x.2.
Proof. by destruct x as [s1 [pc|e]]. Qed.

Lemma handler_remove_no_KeyError now l s k :
  (handler_remove now l s).2 ≠ Finished (Some (KeyError k)).
Proof.
  unfold handler_remove. destruct (_lock s); [done|].
  unfold remove_task, del_task.
  destruct (tasks s !! name_at l s) as [l0|] eqn:Hnm; [|done].
  destruct (is_running_at l0 s); [destruct (_wait_for_task now l0 now s)|];
    simpl; try done; rewrite Hnm; done.
Qed.

(** X8. [del self.tasks[name]] never fails.  In every configuration the
    system can reach, no segment of [remove_task] -- called from outside
    or by the handler of an execution -- ends with a [KeyError], and no
    execution ends by propagating one. *)
Theorem remove_task_never_KeyError c h rest now k :
  reachable c → ready c = h :: rest →
  match h with
  | Poll => True
  | Remover nm target st =>
      ∀ s', remove_task_resume now nm target st (sched c) ≠ Raised (KeyError k) s'
  | Exec l pc =>
      (_execute_task now l pc (sched c)).2 ≠ Finished (Some (KeyError k))
  end.
Proof.
  intros Hreach Hq. destruct (reachable_lock_invariant c Hreach) as [_ He].
  assert (Hin : h ∈ coros c).
  { unfold coros. rewrite Hq. by apply elem_of_cons; left. }
  specialize (He h Hin).
  destruct h as [|l pc|nm target st]; [done| |].
  - unfold _execute_task. rewrite try_finally_result.
    destruct pc as [| |[|e]| |target st]; simpl; try done.
    + destruct (isinstance_Exception e) eqn:Hexc.
      * unfold except_Exception. case_match; [|done].
        apply handler_remove_no_KeyError.
      * simpl. intros [= ->]. done.
    + apply handler_remove_no_KeyError.
    + simpl in He. unfold remove_task_resume, del_task.
      destruct (_wait_for_task now target st (sched c)); [done|].
      by rewrite He.
  - simpl in He. intros s'. unfold remove_task_resume, del_task.
    destruct (_wait_for_task now target st (sched c)); [done|].
    by rewrite He.
Qed.

(** ** The removal of a task by its own execution *)

(** X9. An execution that reaches [max_errors] while its task is registered
    calls [remove_task] on a task that is running -- itself.  It takes the
    lock and waits for its own [is_running] flag, which only its own
    [finally] clause clears: resumed at most 30 seconds after it began to
    wait, it is still waiting, with the lock held. *)
Theorem auto_disable_waits_for_itself c l rest now :
  reachable c →
  (∀ e t, ready c = Exec l (AtWorkDone (Threw e)) :: rest →
     heap (sched c) !! l = Some t →
     isinstance_Exception e = true → max_errors t ≤ error_count t + 1 →
     _lock (sched c) = false → tasks (sched c) !! name t = Some l →
     ∃ s', _execute_task now l (AtWorkDone (Threw e)) (sched c)
             = (s', Suspended (AtWait l now)) ∧
           _lock s' = true ∧ tasks s' = tasks (sched c)) ∧
  (∀ st, ready c = Exec l (AtWait l st) :: rest →
     now - st ≤ timedelta_seconds 30 →
     _execute_task now l (AtWait l st) (sched c)
       = (sched c, Suspended (AtWait l st))).
Proof.
  intros Hreach. pose proof (reachable_invariant c Hreach) as Hinv. split.
  - intros e t Hq Ht He Hmax Hlock Hnm.
    destruct (inv_marked c Hinv l (AtWorkDone (Threw e))) as (t' & Ht' & Hr).
    { unfold coros. rewrite Hq. by apply elem_of_cons; left. }
    assert (t' = t) as -> by congruence. specialize (Hr ltac:(done)).
    unfold _execute_task. simpl. rewrite He. unfold except_Exception.
    set (s1 := update_task (λ t', set_error_count (error_count t' + 1) t') l
                 (sched c)).
    assert (Ht1 : heap s1 !! l = Some (set_error_count (error_count t + 1) t)).
    { unfold s1. by rewrite lookup_update_task, Ht. }
    assert (Htest : (max_errors_at l s1 <=? error_count_at l s1) = true).
    { unfold max_errors_at, error_count_at. rewrite Ht1. simpl. by apply Z.leb_le. }
    assert (Hname : name_at l s1 = name t) by (unfold name_at; by rewrite Ht1).
    assert (Hrun : is_running_at l s1 = true) by (unfold is_running_at; by rewrite Ht1).
    assert (Hfirst : _wait_for_task now l now s1 = true).
    { unfold _wait_for_task. rewrite Hrun. simpl. apply negb_true_iff.
      apply not_true_iff_false. rewrite Qgt_int_total_seconds.
      unfold timedelta_seconds. lia. }
    rewrite Htest. unfold handler_remove.
    replace (_lock s1) with false by done.
    unfold remove_task. rewrite Hname.
    replace (tasks s1 !! name t) with (Some l) by done.
    rewrite Hrun, Hfirst. simpl. eexists. split; [done|]. done.
  - intros st Hq Hle.
    destruct (inv_marked c Hinv l (AtWait l st)) as (t & Ht & Hr).
    { unfold coros. rewrite Hq. by apply elem_of_cons; left. }
    specialize (Hr ltac:(done)).
    unfold _execute_task. simpl. unfold remove_task_resume, _wait_for_task.
    unfold is_running_at. rewrite Ht. simpl. rewrite Hr.
    assert (Hq' : Qgt_int (total_seconds (now - st)) 30 = false).
    { apply not_true_iff_false. rewrite Qgt_int_total_seconds. lia. }
    rewrite Hq'. done.
Qed.

(** X10. The handler removes by name.  When the task object of a failing
    execution is no longer the one registered under its name -- the task
    was removed while it ran and the name was added again -- and the
    execution reaches [max_errors], it deletes the entry of the other task,
    which is idle and has not failed. *)
Theorem handler_removes_by_name now l l' s t e :
  heap s !! l = Some t →
  isinstance_Exception e = true → max_errors t ≤ error_count t + 1 →
  _lock s = false →
  tasks s !! name t = Some l' → l' ≠ l → is_running_at l' s = false →
  ∃ s', _execute_task now l (AtWorkDone (Threw e)) s = (s', Finished None) ∧
        tasks s' = delete (name t) (tasks s) ∧
        heap s' !! l' = heap s !! l' ∧
        run_task_now (name t) s'
          = Raise (ValueError ("Task " ++ name t ++ " not found")).
Proof.
  intros Ht He Hmax Hlock Hnm Hne Hidle.
  unfold _execute_task. simpl. rewrite He. unfold except_Exception.
  set (s1 := update_task (λ t', set_error_count (error_count t' + 1) t') l s).
  assert (Ht1 : heap s1 !! l = Some (set_error_count (error_count t + 1) t)).
  { unfold s1. by rewrite lookup_update_task, Ht. }
  assert (Htest : (max_errors_at l s1 <=? error_count_at l s1) = true).
  { unfold max_errors_at, error_count_at. rewrite Ht1. simpl. by apply Z.leb_le. }
  assert (Hname : name_at l s1 = name t) by (unfold name_at; by rewrite Ht1).
  assert (Hidle1 : is_running_at l' s1 = false).
  { unfold is_running_at, s1 in *. by rewrite lookup_update_task_ne. }
  rewrite Htest. unfold handler_remove.
  replace (_lock s1) with false by done.
  unfold remove_task. rewrite Hname.
  replace (tasks s1 !! name t) with (Some l') by done.
  rewrite Hidle1. unfold del_task.
  replace (tasks s1 !! name t) with (Some l') by done.
  simpl. eexists. split; [done|]. simpl. split_and!; [done| |].
  - by rewrite !list_lookup_alter_ne.
  - unfold run_task_now. simpl. by rewrite lookup_delete_eq.
Qed.

(** ** The interval counts from the start of a run *)

(** X11. After an execution that started at [now0] and whose work returned --
    however late -- the task has [error_count] 0 and is due exactly from
    [now0] plus its interval on. *)
Theorem interval_counts_from_start s nm l t now0 now1 :
  tasks s !! nm = Some l → heap s !! l = Some t →
  ∃ s', successful_execution now0 now1 l s = (s', Finished None) ∧
        tasks s' = tasks s ∧ error_count_at l s' = 0 ∧
        ∀ now, l ∈ due_tasks now s' ↔
               now0 + timedelta_seconds (interval t) ≤ now.
Proof.
  intros Hnm Ht. unfold successful_execution, _execute_task. simpl.
  eexists. split; [done|]. simpl.
  set (t' := set_is_running false (set_error_count 0
               (set_last_run (Some now0) (set_is_running true t)))).
  assert (Ht' : alter (set_is_running false) l
                  (alter (set_error_count 0) l
                     (alter (λ t0, set_last_run (Some now0) (set_is_running true t0))
                        l (heap s))) !! l = Some t').
  { by rewrite !list_lookup_alter_eq, Ht. }
  split_and!; [done| |].
  - unfold error_count_at. simpl. by rewrite Ht'.
  - intros now. rewrite elem_of_due_tasks. simpl. split.
    + intros [_ (t0 & Ht0 & Hd)]. rewrite Ht' in Ht0. injection Ht0 as <-.
      apply is_due_true in Hd as [_ [Hd|(lr & Hlr & Hle)]]; [done|].
      simpl in Hlr. injection Hlr as <-. done.
    + intros Hle. split; [by exists nm|]. exists t'. split; [done|].
      apply is_due_true. split; [done|]. right. by exists now0.
Qed.

(** ** After [stop()], and [start()] after [stop()] *)

Lemma running_execute_task now l pc s :
  running (_execute_task now l pc s).1 = running s.
Proof.
  unfold _execute_task.
  assert (Hte : running (try_except now l pc s).1 = running s).
  { destruct pc as [| |[|e]| |target st]; simpl; try done.
    - destruct (isinstance_Exception e); [|done]. unfold except_Exception.
      case_match; [|done].
      by destruct (handler_remove_frame now l
        (update_task (λ t, set_error_count (error_count t + 1) t) l s))
        as (_ & -> & _).
    - apply handler_remove_frame.
    - destruct (remove_task_resume_frame now (name_at l s) target st s)
        as (_ & Hrun & _).
      by destruct (remove_task_resume now (name_at l s) target st s). }
  by destruct (try_except now l pc s) as [s1 [pc1|e1]].
Qed.

Lemma step_stopped c ev c' :
  running (sched c) = false → step ev c = Some c' →
  running (sched c') = false ∧ (∀ l, l ∈ executions c' → l ∈ executions c).
Proof.
  intros Hstop Hstep. setoid_rewrite elem_of_executions. unfold coros.
  destruct ev as [now|i o|now cl]; simpl in Hstep.
  - destruct (ready c) as [|h rest] eqn:Hq; [done|]. injection Hstep as <-.
    destruct h as [|l pc|nm tg st]; simpl.
    + unfold _run_scheduler. simpl. rewrite Hstop. simpl. split; [done|].
      intros l (pc & Hin). exists pc. by apply elem_of_cons; right.
    + pose proof (running_execute_task now l pc (sched c)) as Hrun.
      destruct (_execute_task now l pc (sched c)) as [s' [pc'|r]];
        simpl in *; (split; [congruence|]); intros l0 (pc0 & Hin).
      * rewrite !elem_of_app, list_elem_of_singleton in Hin.
        destruct Hin as [Hin|[Hin|Hin]].
        -- exists pc0. rewrite elem_of_cons, elem_of_app. tauto.
        -- exists pc0. rewrite elem_of_cons, elem_of_app. tauto.
        -- injection Hin as -> ->. exists pc. by apply elem_of_cons; left.
      * exists pc0. by apply elem_of_cons; right.
    + destruct (remove_task_resume_frame now nm tg st (sched c))
        as (_ & Hrun & _).
      destruct (remove_task_resume now nm tg st (sched c)) as [s'|e s'|tg' st' s'];
        simpl in *; (split; [congruence|]); intros l0 (pc0 & Hin);
        exists pc0; rewrite elem_of_cons, elem_of_app;
        rewrite ?elem_of_app, ?list_elem_of_singleton in Hin;
        intuition congruence.
  - destruct (waiting c !! i) as [h|] eqn:Hi; [|done]. injection Hstep as <-.
    simpl. split; [done|]. intros l0 (pc0 & Hin).
    rewrite !elem_of_app, list_elem_of_singleton in Hin.
    apply list_elem_of_lookup_2 in Hi.
    destruct Hin as [[Hin|Hin]|Hin].
    + exists pc0. rewrite elem_of_app. tauto.
    + destruct h as [|l1 pc1|]; [done| |done].
      exists pc1. rewrite elem_of_app. right.
      by destruct pc1; simplify_eq/=.
    + apply list_elem_of_delete_inv in Hin. exists pc0.
      rewrite elem_of_app. tauto.
  - destruct cl as [nm f iv kw|nm|nm iv|nm| |]; simpl in Hstep.
    + destruct (_lock (sched c)); [done|]. injection Hstep as <-.
      unfold add_task. repeat case_match; simpl; done.
    + destruct (_lock (sched c)); [done|]. injection Hstep as <-.
      destruct (remove_task_frame now nm (sched c)) as (_ & Hrun & _).
      destruct (remove_task now nm (sched c)) as [s'|e s'|tg' st' s'];
        simpl in *; (split; [congruence|]); intros l0 (pc0 & Hin);
        exists pc0; rewrite ?elem_of_app, ?list_elem_of_singleton in Hin;
        rewrite elem_of_app; intuition congruence.
    + destruct (_lock (sched c)); [done|]. injection Hstep as <-.
      unfold update_interval. repeat case_match; simpl; done.
    + injection Hstep as <-.
      unfold run_task_now. repeat case_match; simpl; done.
    + by injection Hstep as <-.
    + by injection Hstep as <-.
Qed.

(** X12. After [stop()] no execution is created any more, whatever is called
    and whatever completes: [self.running] stays false, the executions
    that exist are among those that existed at [stop()] (so
    [run_task_now] and [add_task] no longer lead to a run), and the poll
    loop, when it is next run, leaves its [while] loop and is gone. *)
Theorem stop_ends_polling c evs c' :
  run evs (stop c) = Some c' →
  running (sched c') = false ∧
  (∀ l, l ∈ executions c' → l ∈ executions c) ∧
  (∀ now rest, ready c' = Poll :: rest →
     step (Run now) c'
       = Some {| sched := sched c'; ready := rest; waiting := waiting c' |}).
Proof.
  intros Hrun.
  assert (Hgen : ∀ c0, running (sched c0) = false → run evs c0 = Some c' →
            running (sched c') = false ∧
            (∀ l, l ∈ executions c' → l ∈ executions c0)).
  { clear. induction evs as [|ev evs IH]; intros c0 Hstop Hrun; simpl in Hrun.
    - by injection Hrun as <-.
    - destruct (step ev c0) as [c1|] eqn:Hstep; [|done].
      destruct (step_stopped c0 ev c1 Hstop Hstep) as [Hstop1 Hsub].
      destruct (IH c1 Hstop1 Hrun) as [Hstop' Hsub']. auto. }
  destruct (Hgen (stop c) eq_refl Hrun) as [Hstop Hsub].
  split_and!; [done|done|].
  intros now rest Hq. simpl. rewrite Hq. simpl.
  unfold _run_scheduler. simpl. by rewrite Hstop.
Qed.

(** X13. [start()] does nothing on a running scheduler, but [stop()] followed
    by [start()] while the poll loop has not yet seen [self.running]
    false -- it sleeps, or is scheduled -- leaves two poll loops: the old
    one goes on, since [self.running] is true again when it looks. *)
Theorem restart_leaves_two_poll_loops c :
  running (sched c) = true → Poll ∈ coros c →
  start c = c ∧
  running (sched (start (stop c))) = true ∧
  tasks (sched (start (stop c))) = tasks (sched c) ∧
  heap (sched (start (stop c))) = heap (sched c) ∧
  coros (start (stop c)) ≡ₚ Poll :: coros c ∧
  ¬ unique_coros (start (stop c)).
Proof.
  intros Hrun Hin. unfold start at 1. rewrite Hrun.
  assert (Hperm : coros (start (stop c)) ≡ₚ Poll :: coros c).
  { unfold coros, start, stop. simpl. by solve_Permutation. }
  split_and!; try done.
  unfold unique_coros. intros Hnd.
  rewrite (omap_Permutation coro_id _ _ Hperm) in Hnd.
  simpl in Hnd. apply NoDup_cons in Hnd as [Hnot _]. apply Hnot.
  apply list_elem_of_omap. by exists Poll.
Qed.

(** X14. With two poll loops scheduled one after the other, each iteration
    launches the tasks that are due, before any of the executions has set
    [is_running]: a task due at both instants gets two executions. *)
Theorem two_poll_loops_launch_twice c rest now now' l :
  ready c = Poll :: Poll :: rest → running (sched c) = true →
  l ∈ due_tasks now (sched c) → l ∈ due_tasks now' (sched c) →
  ∃ c', run [Run now; Run now'] c = Some c' ∧
        sched c' = sched c ∧
        ready c' = rest ++ ((λ l, Exec l AtStart) <$> due_tasks now (sched c))
                        ++ ((λ l, Exec l AtStart) <$> due_tasks now' (sched c)) ∧
        waiting c' = waiting c ++ [Poll; Poll] ∧
        ¬ NoDup (executions c').
Proof.
  intros Hq Hrun Hdue Hdue'. simpl. rewrite Hq. simpl.
  unfold _run_scheduler. simpl. rewrite Hrun. simpl.
  unfold _run_scheduler. simpl. rewrite Hrun. simpl.
  eexists. split; [done|]. simpl.
  split_and!; [done|by rewrite <- !app_assoc|by rewrite <- !app_assoc|].
  unfold executions, coros. simpl. rewrite <- !app_assoc, !omap_app.
  intros Hnd. apply NoDup_app in Hnd as (_ & _ & Hnd).
  apply NoDup_app in Hnd as (_ & Hdis & _).
  apply (Hdis l).
  - apply list_elem_of_omap. exists (Exec l AtStart).
    split; [|done]. apply list_elem_of_fmap. by exists l.
  - apply elem_of_app. left.
    apply list_elem_of_omap. exists (Exec l AtStart).
    split; [|done]. apply list_elem_of_fmap. by exists l.
Qed.

(** ** The registry and the interval *)

(** X15. In every state the system reaches, each registered name is bound to an
    allocated task object whose [name] field is that name, and no two
    names are bound to the same task object. *)
Theorem registry_binds_names c nm l :
  reachable c → tasks (sched c) !! nm = Some l →
  (∃ t, heap (sched c) !! l = Some t ∧ name t = nm) ∧
  (∀ nm', tasks (sched c) !! nm' = Some l → nm' = nm).
Proof.
  intros Hreach Hnm.
  pose proof (inv_registry c (reachable_invariant c Hreach)) as Hreg.
  split; [by apply Hreg|].
  intros nm' Hnm'.
  destruct (Hreg nm l Hnm) as (t & Ht & <-).
  destruct (Hreg nm' l Hnm') as (t' & Ht' & <-). congruence.
Qed.

(** X16. A new interval counts from the last start of the task: after
    [update_interval] an idle task that has run is due exactly from its
    [last_run] plus the new interval on -- at once if that instant has
    passed -- and the other tasks are due as before. *)
Theorem update_interval_counts_from_last_run s nm l t lr iv :
  tasks s !! nm = Some l → heap s !! l = Some t →
  is_running t = false → last_run t = Some lr →
  ∃ s', update_interval nm iv s = Ok s' ∧
        (∀ now, l ∈ due_tasks now s' ↔ lr + timedelta_seconds iv ≤ now) ∧
        (∀ l' now, l' ≠ l → l' ∈ due_tasks now s' ↔ l' ∈ due_tasks now s).
Proof.
  intros Hnm Ht Hidle Hlr. unfold update_interval. rewrite Hnm.
  eexists. split; [done|]. split.
  - intros now. rewrite elem_of_due_tasks, lookup_update_task, Ht. simpl.
    split.
    + intros [_ (t' & [= <-] & Hd)].
      apply is_due_true in Hd as [_ [Hd|(lr' & Hlr' & Hle)]];
        simpl in *; congruence.
    + intros Hle. split; [by exists nm|]. eexists. split; [done|].
      apply is_due_true. split; [done|]. right. by exists lr.
  - intros l' now Hne. rewrite !elem_of_due_tasks.
    by rewrite lookup_update_task_ne.
Qed.

(** ** The error counts *)

















End MoreProofs.

(** * The further properties on the example data *)

Lemma example_third_failure_reachable : reachable example_third_failure.
Proof.
  apply (reachable_run example_failing_events started); [apply reachable_started|].
  vm_compute. reflexivity.
Qed.

Lemma example_self_wait_reachable : reachable example_self_wait.
Proof.
  apply (reachable_run (example_failing_events ++ [Run 8; Wake 1%nat Returned])
           started); [apply reachable_started|].
  vm_compute. reflexivity.
Qed.


Lemma add_then_remove_witness :
  ∃ s1 s2, add_task "other" "work" None ∅ (sched example_failed) = Ok s1 ∧
           remove_task 5 "other" s1 = Done s2 ∧
           tasks s2 = tasks (sched example_failed).
Proof.
  destruct (add_then_remove (λ _, "") (sched example_failed) "other" "work"
              None ∅ 5 6
              (inv_registry _ (reachable_invariant _ example_failed_reachable))
              eq_refl)
    as (s1 & s2 & Hadd & Hrm & Htasks & _).
  exists s1, s2. split_and!; [exact Hadd|exact Hrm|exact Htasks].
Defined.

Lemma remove_task_waits_under_lock_witness :
  ∃ c', do_call 5 (RemoveTask "health_check") example_failed = Some c' ∧
        _lock (sched c') = true ∧
        do_call 6 (AddTask "other" "work" None ∅) c' = None.
Proof.
  destruct (remove_task_waits_under_lock example_failed "health_check" 0%nat _ 5
              eq_refl eq_refl eq_refl eq_refl)
    as (c' & Hcall & Hsched & _ & _ & Hadd & _).
  exists c'. split_and!; [exact Hcall|by rewrite Hsched|apply Hadd].
Defined.

Lemma remove_task_bounded_wait_witness :
  ∃ s', remove_task_resume 31000000 "x" 0%nat 0 example_busy = Done s' ∧
        tasks s' = delete "x" (tasks example_busy) ∧
        is_running_at 0%nat s' = true.
Proof.
  destruct (remove_task_bounded_wait example_busy "x" 0%nat 0 31000000 eq_refl)
    as (_ & _ & Htimeout).
  destruct (Htimeout eq_refl) as (s' & Hrm & Htasks & _ & Hrun).
  { vm_compute. reflexivity. }
  exists s'. split_and!; [exact Hrm|exact Htasks|exact Hrun].
Defined.

Lemma execution_isolated_witness :
  running (_execute_task 2 0%nat (AtWorkDone example_boom)
             (sched example_failed)).1 = true ∧
  length (heap (_execute_task 2 0%nat (AtWorkDone example_boom)
                  (sched example_failed)).1) = 1%nat.
Proof.
  destruct (execution_isolated 2 0%nat (AtWorkDone example_boom)
              (sched example_failed) _ eq_refl)
    as (Hrun & Hlen & _).
  split; [exact Hrun|exact Hlen].
Defined.

Lemma unset_last_run_is_due_witness :
  ∃ t, heap (sched example_failed) !! 0%nat = Some t ∧ is_Some (last_run t).
Proof.
  destruct (unset_last_run_is_due example_failed example_failed_reachable)
    as [Hstarted _].
  eexists. split; [reflexivity|].
  apply (Hstarted 0%nat _ eq_refl). reflexivity.
Defined.

Lemma lock_mutual_exclusion_witness :
  _lock (sched example_self_wait) = true ∧
  length (holders example_self_wait) = 1%nat ∧
  tasks (sched example_self_wait) !! "x" = Some 0%nat.
Proof.
  destruct (lock_mutual_exclusion example_self_wait example_self_wait_reachable)
    as (_ & Hiff & _ & Hentry).
  split; [reflexivity|]. split; [by apply Hiff|].
  apply (Hentry 0%nat 0%nat 8). vm_compute. repeat constructor.
Defined.

Lemma remove_task_never_KeyError_witness :
  ready example_self_wait = [Exec 0%nat (AtWait 0%nat 8)] ∧
  (_execute_task 40000000 0%nat (AtWait 0%nat 8) (sched example_self_wait)).2
    ≠ Finished (Some (KeyError "x")).
Proof.
  split; [reflexivity|].
  exact (remove_task_never_KeyError example_self_wait
           (Exec 0%nat (AtWait 0%nat 8)) [] 40000000 "x"
           example_self_wait_reachable eq_refl).
Defined.

Lemma auto_disable_waits_for_itself_witness :
  (∃ s', _execute_task 8 0%nat (AtWorkDone example_boom)
           (sched example_third_failure) = (s', Suspended (AtWait 0%nat 8)) ∧
         _lock s' = true) ∧
  _execute_task 20000000 0%nat (AtWait 0%nat 8) (sched example_self_wait)
    = (sched example_self_wait, Suspended (AtWait 0%nat 8)).
Proof.
  split.
  - destruct (auto_disable_waits_for_itself example_third_failure 0%nat [] 8
                example_third_failure_reachable) as [Hfirst _].
    destruct (Hfirst (OtherException "boom") _ eq_refl eq_refl eq_refl)
      as (s' & Hex & Hlock & _); [simpl; lia|reflexivity|reflexivity|].
    exists s'. split; [exact Hex|exact Hlock].
  - destruct (auto_disable_waits_for_itself example_self_wait 0%nat [] 20000000
                example_self_wait_reachable) as [_ Hagain].
    apply (Hagain 8 eq_refl). vm_compute. discriminate.
Defined.

Lemma handler_removes_by_name_witness :
  ∃ s', _execute_task 5 0%nat (AtWorkDone example_boom) example_namesake
          = (s', Finished None) ∧
        tasks s' = delete "x" (tasks example_namesake) ∧
        error_count_at 1%nat s' = 0.
Proof.
  destruct (handler_removes_by_name 5 0%nat 1%nat example_namesake _
              (OtherException "boom") eq_refl eq_refl)
    as (s' & Hex & Htasks & Hheap & _);
    [simpl; lia|reflexivity|reflexivity|lia|reflexivity|].
  exists s'. split_and!; [exact Hex|exact Htasks|].
  unfold error_count_at. rewrite Hheap. reflexivity.
Defined.

Lemma interval_counts_from_start_witness :
  ∃ s', successful_execution 100000000 250000000 0%nat example_idle
          = (s', Finished None) ∧
        0%nat ∈ due_tasks 160000000 s' ∧ 0%nat ∉ due_tasks 159999999 s'.
Proof.
  destruct (interval_counts_from_start example_idle "x" 0%nat _
              100000000 250000000 eq_refl eq_refl)
    as (s' & Hex & _ & _ & Hdue).
  exists s'. split; [exact Hex|]. split.
  - apply Hdue. vm_compute. discriminate.
  - intros Hin. apply Hdue in Hin. vm_compute in Hin. by apply Hin.
Defined.

Lemma example_stopped_run :
  run [Call 1 (RunTaskNow "health_check"); Run 5] (stop example_polling)
    = Some example_stopped.
Proof. vm_compute. reflexivity. Qed.

Lemma stop_ends_polling_witness :
  running (sched example_stopped) = false ∧ 0%nat ∉ executions example_stopped.
Proof.
  destruct (stop_ends_polling example_polling _ example_stopped
              example_stopped_run) as (Hstop & Hsub & _).
  split; [exact Hstop|]. intros Hin. apply Hsub in Hin.
  vm_compute in Hin. by apply elem_of_nil in Hin.
Defined.

Lemma restart_leaves_two_poll_loops_witness :
  start example_polling = example_polling ∧ ¬ unique_coros example_restarted.
Proof.
  destruct (restart_leaves_two_poll_loops example_polling eq_refl)
    as (Hstart & _ & _ & _ & _ & Hdup).
  { vm_compute. repeat constructor. }
  split; [exact Hstart|exact Hdup].
Defined.

Lemma two_poll_loops_launch_twice_witness :
  ∃ c', run [Run 5; Run 5] example_restarted = Some c' ∧
        ¬ NoDup (executions c').
Proof.
  destruct (two_poll_loops_launch_twice example_restarted [] 5 5 0%nat
              eq_refl eq_refl)
    as (c' & Hrun & _ & _ & _ & Hdup).
  { vm_compute. repeat constructor. }
  { vm_compute. repeat constructor. }
  exists c'. split; [exact Hrun|exact Hdup].
Defined.

Lemma registry_binds_names_witness :
  ∃ t, heap (sched example_failed) !! 0%nat = Some t ∧ name t = "health_check".
Proof.
  apply (registry_binds_names example_failed "health_check" 0%nat
           example_failed_reachable eq_refl).
Defined.

Lemma update_interval_counts_from_last_run_witness :
  ∃ s', update_interval "x" 10 example_idle = Ok s' ∧
        0%nat ∈ due_tasks 10000000 s' ∧ 0%nat ∉ due_tasks 9999999 s'.
Proof.
  destruct (update_interval_counts_from_last_run example_idle "x" 0%nat _ 0 10
              eq_refl eq_refl eq_refl eq_refl)
    as (s' & Hupd & Hdue & _).
  exists s'. split; [exact Hupd|]. split.
  - apply Hdue. vm_compute. discriminate.
  - intros Hin. apply Hdue in Hin. vm_compute in Hin. by apply Hin.
Defined.

